(** * yamltrimmer: the selective-projection engine of [cmd/yamltrimmer.go]

    A shallow embedding of [filterByRules] and [trim], first over YAML trees
    as values and then over a store of nodes addressed by pointers, followed
    by the properties of the projection that the specification states. *)

From Equations Require Import Equations.
From stdpp Require Import base decidable option list strings pretty gmap.
From Stdlib Require Import ZArith NArith Lia.
From Stdlib.Strings Require Import Ascii Byte.

(** ** Outcomes of a Go call

    [Ok] is a normal return.  [Error] is a non-nil [error] handed back to the
    caller.  [Fatal] is [logrus.Fatalf]: the message is logged and the process
    exits, so nothing of the call chain runs afterwards.  [Panic] is a Go
    run-time panic (an index out of range, a nil pointer dereference). *)

Inductive outcome (A : Type) : Type :=
| Ok (a : A)
| Error (msg : string)
| Fatal (msg : string)
| Panic (msg : string).

Arguments Ok {A} a.
Arguments Error {A} msg.
Arguments Fatal {A} msg.
Arguments Panic {A} msg.

#[global] Instance outcome_ret : MRet outcome := @Ok.

#[global] Instance outcome_bind : MBind outcome := λ A B f m,
  match m with
  | Ok a => f a
  | Error msg => Error msg
  | Fatal msg => Fatal msg
  | Panic msg => Panic msg
  end.

Definition isOk {A} (m : outcome A) : bool :=
  match m with Ok _ => true | _ => false end.

(** ** The document tree of gopkg.in/yaml.v3 *)

(** [yaml.Kind]; [ZeroKind] is the kind of a [Node] declared with [var]. *)
Inductive NodeKind : Set :=
| ZeroKind | DocumentNode | SequenceNode | MappingNode | ScalarNode | AliasNode.

#[global] Instance NodeKind_eq_dec : EqDecision NodeKind.
Proof. solve_decision. Defined.

#[local] Unset Elimination Schemes.

(** Modelled from the spec: the Document Node of §3, which is [yaml.Node] of
    the YAML library and not declared in this repository.  It has a kind, a
    style hint that the engine copies and never reads, the text of a scalar
    ([Value], which is what a rule key is compared with), the position
    ([Line], [Column]) and, for a mapping node, the content sequence
    [key0, value0, key1, value1, ...].  The remaining fields are presentation
    metadata carried along with a node. *)
Inductive Node : Type := mkNode {
  Kind : NodeKind;
  Style : N;
  Tag : string;
  Value : string;
  Anchor : string;
  Alias : option Node;
  Content : list Node;
  HeadComment : string;
  LineComment : string;
  FootComment : string;
  Line : Z;
  Column : Z
}.

(** [IncludeConfigItem]: a key and the nested rules for the value. *)
Inductive IncludeConfigItem : Type := mkIncludeConfigItem {
  Key : string;
  Include : list IncludeConfigItem
}.

#[local] Set Elimination Schemes.

(** [var n yaml.Node]: every field has its zero value. *)
Definition zeroNode : Node :=
  mkNode ZeroKind 0%N "" "" "" None [] "" "" "" 0%Z 0%Z.

(** [n.Kind = k], [n.Style = s] and [n.Content = c] as functional updates. *)
Definition setKind (n : Node) (k : NodeKind) : Node :=
  mkNode k (Style n) (Tag n) (Value n) (Anchor n) (Alias n) (Content n)
         (HeadComment n) (LineComment n) (FootComment n) (Line n) (Column n).

Definition setStyle (n : Node) (s : N) : Node :=
  mkNode (Kind n) s (Tag n) (Value n) (Anchor n) (Alias n) (Content n)
         (HeadComment n) (LineComment n) (FootComment n) (Line n) (Column n).

Definition setContent (n : Node) (c : list Node) : Node :=
  mkNode (Kind n) (Style n) (Tag n) (Value n) (Anchor n) (Alias n) c
         (HeadComment n) (LineComment n) (FootComment n) (Line n) (Column n).

(** [n.Content = append(n.Content, child)].  A list has no capacity: this is
    what [append] does to a slice that shares no backing array with another
    slice, such as the content of a node declared with [var], which is what
    every caller in the repository starts from. *)
Definition appendContent (n child : Node) : Node :=
  setContent n (Content n ++ [child]).

(** ** The scan of one rule over the input mapping

    [for i := 0; i < len(inputNode.Content); i += 2] with
    [keyNode := inputNode.Content[i]], [valueNode := inputNode.Content[i+1]]
    and the [break] at the first [keyNode.Value == rule.Key].  Both elements
    are read before the comparison, so a content sequence of odd length makes
    the read of [Content[i+1]] fail when the scan reaches the last element. *)

Inductive scanResult : Type :=
| Found (i : nat) (keyNode valueNode : Node)
| NotFound
| OutOfRange (i : nat).

Equations? scanFrom (key : string) (content : list Node) (i : nat) : scanResult
  by wf (length content - i) lt :=
  scanFrom key content i with decide (i < length content) := {
    | right _ := NotFound
    | left _ :=
        match content !! i, content !! (i + 1) with
        | Some keyNode, Some valueNode =>
            if decide (Value keyNode = key) then Found i keyNode valueNode
            else scanFrom key content (i + 2)
        | Some _, None => OutOfRange (i + 1)
        | None, _ => OutOfRange i
        end }.
Proof. lia. Qed.

(** The indices of [inputNode.Content] that the scan reads, in order. *)
Equations? scanReads (key : string) (content : list Node) (i : nat) : list nat
  by wf (length content - i) lt :=
  scanReads key content i with decide (i < length content) := {
    | right _ := []
    | left _ :=
        match content !! i with
        | None => [i]
        | Some keyNode =>
            match content !! (i + 1) with
            | None => [i; i + 1]
            | Some valueNode =>
                i :: (i + 1) ::
                  (if decide (Value keyNode = key) then []
                   else scanReads key content (i + 2))
            end
        end }.
Proof. lia. Qed.

(** The same scan on the remaining slice [Content[i:]]: the list view that
    the proofs use; [scanFrom_findPair] relates the two. *)
Fixpoint findPair (key : string) (rest : list Node) : option (option (Node * Node)) :=
  match rest with
  | [] => Some None
  | keyNode :: rest' =>
      match rest' with
      | [] => None
      | valueNode :: rest'' =>
          if decide (Value keyNode = key) then Some (Some (keyNode, valueNode))
          else findPair key rest''
      end
  end.

(** The (key, value) pairs of a content sequence, and the key texts. *)
Fixpoint pairsOf (content : list Node) : list (Node * Node) :=
  match content with
  | keyNode :: valueNode :: rest => (keyNode, valueNode) :: pairsOf rest
  | _ => []
  end.

Definition keyNodes (content : list Node) : list Node := (pairsOf content).*1.

Definition keyTexts (content : list Node) : list string := Value <$> keyNodes content.

(** ** [filterByRules] *)

Definition notAMappingMsg : string := "Input node is not a mapping node".
Definition indexOutOfRangeMsg : string := "runtime error: index out of range".

(** [for _, rule := range rules { body }], the body threading [outputNode]. *)
Definition rangeRules (body : IncludeConfigItem → Node → outcome Node) :
    list IncludeConfigItem → Node → outcome Node :=
  fix loop rules outputNode :=
    match rules with
    | [] => Ok outputNode
    | rule :: rest => outputNode' ← body rule outputNode; loop rest outputNode'
    end.

(** The function with the body of its [range] loop as a parameter, so that
    the body can call the function on the nested rules. *)
Definition filterByRulesWith
    (body : IncludeConfigItem → Node → Node → outcome Node)
    (rules : list IncludeConfigItem) (inputNode outputNode : Node) : outcome Node :=
  if decide (Kind inputNode ≠ MappingNode) then Fatal notAMappingMsg
  else
    let outputNode := setKind outputNode MappingNode in
    let outputNode := setStyle outputNode (Style inputNode) in
    rangeRules (λ rule out, body rule inputNode out) rules outputNode.

(** One iteration of [for _, rule := range rules]. *)
Fixpoint rangeBody (rule : IncludeConfigItem) (inputNode outputNode : Node)
    {struct rule} : outcome Node :=
  match rule with
  | mkIncludeConfigItem key include =>
      match scanFrom key (Content inputNode) 0 with
      | OutOfRange _ => Panic indexOutOfRangeMsg
      | NotFound => Ok outputNode
      | Found _ keyNode valueNode =>
          let outputNode := appendContent outputNode keyNode in
          if decide (0 < length include) then
            nestedOutputNode ← filterByRulesWith rangeBody include valueNode zeroNode;
            Ok (appendContent outputNode nestedOutputNode)
          else
            Ok (appendContent outputNode valueNode)
      end
  end.

(** [func filterByRules(rules []IncludeConfigItem, inputNode, outputNode *yaml.Node)];
    the result is [outputNode] after the call. *)
Definition filterByRules : list IncludeConfigItem → Node → Node → outcome Node :=
  filterByRulesWith rangeBody.

(** The specification's [project]: every caller in the repository passes a
    node declared with [var]. *)
Definition project (rules : list IncludeConfigItem) (input : Node) : outcome Node :=
  filterByRules rules input zeroNode.

(** A tree is well formed when every mapping node in it holds whole
    (key, value) pairs, as every parsed mapping does. *)
Fixpoint wellFormed (n : Node) : bool :=
  match n with
  | mkNode kind _ _ _ _ _ content _ _ _ _ _ =>
      (if decide (kind = MappingNode) then Nat.even (length content) else true)
      && forallb wellFormed content
  end.

(** The rule keys of a forest are pairwise distinct, at every level. *)
Fixpoint distinctKeysRule (rule : IncludeConfigItem) : Prop :=
  match rule with
  | mkIncludeConfigItem _ include =>
      NoDup (Key <$> include) ∧
      (fix all (rs : list IncludeConfigItem) : Prop :=
         match rs with [] => True | r :: rs' => distinctKeysRule r ∧ all rs' end) include
  end.

Definition distinctKeys (rules : list IncludeConfigItem) : Prop :=
  distinctKeysRule (mkIncludeConfigItem "" rules).

(** The calls of [filterByRules] that a call leads to: the call itself, and
    the call on [rule.Include] and the matched value for every rule with
    nested rules whose key the scan finds. *)
Inductive callsInto :
    list IncludeConfigItem → Node → list IncludeConfigItem → Node → Prop :=
| callsInto_here rules input :
    callsInto rules input rules input
| callsInto_nested rules input rule i keyNode valueNode rules' input' :
    rule ∈ rules →
    Kind input = MappingNode →
    scanFrom (Key rule) (Content input) 0 = Found i keyNode valueNode →
    0 < length (Include rule) →
    callsInto (Include rule) valueNode rules' input' →
    callsInto rules input rules' input'.

(** ** [trim]

    [yaml.Unmarshal] and the encoder of the YAML library are taken as
    parameters: [yamlUnmarshal input] is the document node the parser fills
    [root] with, or the text of its error; [yamlEncode indent n] is what an
    encoder with [SetIndent(indent)] writes for [n], or the text of its
    error. *)

Definition noContentMsg : string := "no content in the input YAML".
Definition multipleDocumentsMsg : string :=
  "Multiple documents in the input YAML. This is not supported yet.".
Definition unmarshalErrorPrefix : string := "failed to unmarshal input YAML: ".
Definition marshalErrorPrefix : string := "failed to marshal output YAML: ".

Record Codec : Type := mkCodec {
  yamlUnmarshal : list byte → Node + string;
  yamlEncode : nat → Node → list byte + string
}.

Definition trim (yaml : Codec) (input : list byte) (rules : list IncludeConfigItem) :
    outcome (list byte) :=
  match yamlUnmarshal yaml input with
  | inr err => Error (unmarshalErrorPrefix +:+ err)
  | inl root =>
      if decide (length (Content root) = 0) then Error noContentMsg
      else if decide (1 < length (Content root)) then Fatal multipleDocumentsMsg
      else
        match Content root !! 0 with
        | None => Panic indexOutOfRangeMsg
        | Some root =>
            outputNode ← filterByRules rules root zeroNode;
            match yamlEncode yaml 2 outputNode with
            | inr err => Error (marshalErrorPrefix +:+ err)
            | inl output => Ok output
            end
        end
  end.

(** ** The same code over a store of nodes

    [*yaml.Node] is a location of the store; a cell holds the fields of one
    node, its content being a slice of pointers.  A location outside the
    store stands for a nil pointer. *)

Record Cell : Type := mkCell {
  cellKind : NodeKind;
  cellStyle : N;
  cellTag : string;
  cellValue : string;
  cellAnchor : string;
  cellAlias : option positive;
  cellContent : list positive;
  cellHeadComment : string;
  cellLineComment : string;
  cellFootComment : string;
  cellLine : Z;
  cellColumn : Z
}.

Definition zeroCell : Cell :=
  mkCell ZeroKind 0%N "" "" "" None [] "" "" "" 0%Z 0%Z.

Definition cellSetKind (c : Cell) (k : NodeKind) : Cell :=
  mkCell k (cellStyle c) (cellTag c) (cellValue c) (cellAnchor c) (cellAlias c)
         (cellContent c) (cellHeadComment c) (cellLineComment c) (cellFootComment c)
         (cellLine c) (cellColumn c).

Definition cellSetStyle (c : Cell) (s : N) : Cell :=
  mkCell (cellKind c) s (cellTag c) (cellValue c) (cellAnchor c) (cellAlias c)
         (cellContent c) (cellHeadComment c) (cellLineComment c) (cellFootComment c)
         (cellLine c) (cellColumn c).

Definition cellSetContent (c : Cell) (content : list positive) : Cell :=
  mkCell (cellKind c) (cellStyle c) (cellTag c) (cellValue c) (cellAnchor c)
         (cellAlias c) content (cellHeadComment c) (cellLineComment c)
         (cellFootComment c) (cellLine c) (cellColumn c).

Definition nilDereferenceMsg : string :=
  "runtime error: invalid memory address or nil pointer dereference".

(** [*p] *)
Definition load (h : gmap positive Cell) (p : positive) : outcome Cell :=
  match h !! p with
  | Some c => Ok c
  | None => Panic nilDereferenceMsg
  end.

(** A write through [p] to one field: [p.f = ...] *)
Definition modify (f : Cell → Cell) (p : positive) (h : gmap positive Cell) :
    outcome (gmap positive Cell) :=
  c ← load h p; Ok (<[p := f c]> h).

(** [p.Content = append(p.Content, child)] *)
Definition appendContentAt (p child : positive) (h : gmap positive Cell) :
    outcome (gmap positive Cell) :=
  modify (λ c, cellSetContent c (cellContent c ++ [child])) p h.

Inductive scanResultAt : Type :=
| FoundAt (i : nat) (keyNode valueNode : positive)
| NotFoundAt
| OutOfRangeAt (i : nat)
| NilKeyAt (i : nat).

(** The scan over a slice of pointers; [keyNode.Value] reads through the
    pointer [Content[i]]. *)
Equations? scanFromAt (h : gmap positive Cell) (key : string)
    (content : list positive) (i : nat) : scanResultAt
  by wf (length content - i) lt :=
  scanFromAt h key content i with decide (i < length content) := {
    | right _ := NotFoundAt
    | left _ :=
        match content !! i, content !! (i + 1) with
        | Some keyNode, Some valueNode =>
            match h !! keyNode with
            | None => NilKeyAt i
            | Some keyCell =>
                if decide (cellValue keyCell = key) then FoundAt i keyNode valueNode
                else scanFromAt h key content (i + 2)
            end
        | Some _, None => OutOfRangeAt (i + 1)
        | None, _ => OutOfRangeAt i
        end }.
Proof. lia. Qed.

(** The [range] loop, the body of the loop as a parameter and one iteration,
    as for trees; the store is threaded through. *)
Definition rangeRulesAt
    (body : IncludeConfigItem → gmap positive Cell → outcome (gmap positive Cell)) :
    list IncludeConfigItem → gmap positive Cell → outcome (gmap positive Cell) :=
  fix loop rules h :=
    match rules with
    | [] => Ok h
    | rule :: rest => h' ← body rule h; loop rest h'
    end.

Definition filterByRulesAtWith
    (body : IncludeConfigItem → positive → positive →
            gmap positive Cell → outcome (gmap positive Cell))
    (rules : list IncludeConfigItem) (inputNode outputNode : positive)
    (h : gmap positive Cell) : outcome (gmap positive Cell) :=
  input ← load h inputNode;
  if decide (cellKind input ≠ MappingNode) then Fatal notAMappingMsg
  else
    h ← modify (λ c, cellSetKind c MappingNode) outputNode h;
    input ← load h inputNode;
    h ← modify (λ c, cellSetStyle c (cellStyle input)) outputNode h;
    rangeRulesAt (λ rule h, body rule inputNode outputNode h) rules h.

Fixpoint rangeBodyAt (rule : IncludeConfigItem) (inputNode outputNode : positive)
    (h : gmap positive Cell) {struct rule} : outcome (gmap positive Cell) :=
  match rule with
  | mkIncludeConfigItem key include =>
      input ← load h inputNode;
      match scanFromAt h key (cellContent input) 0 with
      | OutOfRangeAt _ => Panic indexOutOfRangeMsg
      | NilKeyAt _ => Panic nilDereferenceMsg
      | NotFoundAt => Ok h
      | FoundAt _ keyNode valueNode =>
          h ← appendContentAt outputNode keyNode h;
          if decide (0 < length include) then
            let nestedOutputNode := fresh (dom h) in
            let h := <[nestedOutputNode := zeroCell]> h in
            h ← filterByRulesAtWith rangeBodyAt include valueNode nestedOutputNode h;
            appendContentAt outputNode nestedOutputNode h
          else
            appendContentAt outputNode valueNode h
      end
  end.

(** [filterByRules] on the store: the result is the store after the call. *)
Definition filterByRulesAt :
    list IncludeConfigItem → positive → positive →
    gmap positive Cell → outcome (gmap positive Cell) :=
  filterByRulesAtWith rangeBodyAt.

(** [var outputNode yaml.Node; filterByRules(rules, input, &outputNode)],
    as [trim], the test and the recursive call do. *)
Definition projectAt (rules : list IncludeConfigItem) (inputNode : positive)
    (h : gmap positive Cell) : outcome (positive * gmap positive Cell) :=
  let outputNode := fresh (dom h) in
  h' ← filterByRulesAt rules inputNode outputNode (<[outputNode := zeroCell]> h);
  Ok (outputNode, h').

(** ** What a call appends

    The entries one rule adds to [outputNode.Content], and the entries of a
    whole [range] loop in the order of the rules. *)

Definition scanView (r : scanResult) : option (option (Node * Node)) :=
  match r with
  | Found _ keyNode valueNode => Some (Some (keyNode, valueNode))
  | NotFound => Some None
  | OutOfRange _ => None
  end.

Definition ruleEntries (rule : IncludeConfigItem) (inputNode : Node) : outcome (list Node) :=
  match scanFrom (Key rule) (Content inputNode) 0 with
  | OutOfRange _ => Panic indexOutOfRangeMsg
  | NotFound => Ok []
  | Found _ keyNode valueNode =>
      if decide (0 < length (Include rule)) then
        nestedOutputNode ← filterByRules (Include rule) valueNode zeroNode;
        Ok [keyNode; nestedOutputNode]
      else Ok [keyNode; valueNode]
  end.

Fixpoint forestEntries (rules : list IncludeConfigItem) (inputNode : Node) :
    outcome (list Node) :=
  match rules with
  | [] => Ok []
  | rule :: rest =>
      entries ← ruleEntries rule inputNode;
      entries' ← forestEntries rest inputNode;
      Ok (entries ++ entries')
  end.

(** ** Sample documents and rules

    The trees below are what the parser builds for the documents of the
    repository's tests, with the tags and positions it records. *)

Definition scalarNode (tag value : string) (line column : Z) : Node :=
  mkNode ScalarNode 0%N tag value "" None [] "" "" "" line column.

Definition mappingNode (content : list Node) (line column : Z) : Node :=
  mkNode MappingNode 0%N "!!map" "" "" None content "" "" "" line column.

(** The node [filterByRules] builds from a [var] node: kind, style, content. *)
Definition outputMapping (style : N) (content : list Node) : Node :=
  mkNode MappingNode style "" "" "" None content "" "" "" 0%Z 0%Z.

Definition leafRule (key : string) : IncludeConfigItem := mkIncludeConfigItem key [].

(** [[
cache:
  enabled: true
database:
  host: localhost
  port: 5432
  credentials:
    username: user
    password: pass
]] *)
Definition cacheKey : Node := scalarNode "!!str" "cache" 1 1.
Definition cacheValue : Node :=
  mappingNode [scalarNode "!!str" "enabled" 2 3; scalarNode "!!bool" "true" 2 12] 2 3.
Definition databaseKey : Node := scalarNode "!!str" "database" 3 1.
Definition hostKey : Node := scalarNode "!!str" "host" 4 3.
Definition hostValue : Node := scalarNode "!!str" "localhost" 4 9.
Definition credentialsKey : Node := scalarNode "!!str" "credentials" 6 3.
Definition usernameKey : Node := scalarNode "!!str" "username" 7 5.
Definition usernameValue : Node := scalarNode "!!str" "user" 7 15.
Definition credentialsValue : Node :=
  mappingNode [usernameKey; usernameValue;
               scalarNode "!!str" "password" 8 5; scalarNode "!!str" "pass" 8 15] 7 5.
Definition databaseValue : Node :=
  mappingNode [hostKey; hostValue;
               scalarNode "!!str" "port" 5 3; scalarNode "!!int" "5432" 5 9;
               credentialsKey; credentialsValue] 4 3.
Definition sampleDocument : Node :=
  mappingNode [cacheKey; cacheValue; databaseKey; databaseValue] 1 1.

(** [[
include:
  - key: database
    include:
      - key: host
      - key: credentials
        include:
          - key: username
]] *)
Definition nestedRules : list IncludeConfigItem :=
  [mkIncludeConfigItem "database"
     [leafRule "host"; mkIncludeConfigItem "credentials" [leafRule "username"]]].

Definition nestedOutput : Node :=
  outputMapping 0
    [databaseKey;
     outputMapping 0
       [hostKey; hostValue;
        credentialsKey; outputMapping 0 [usernameKey; usernameValue]]].

(** Rules declared in the order database, nonexistent, cache. *)
Definition reorderingRules : list IncludeConfigItem :=
  [leafRule "database"; leafRule "nonexistent"; leafRule "cache"].

Definition reorderedOutput : Node :=
  outputMapping 0 [databaseKey; databaseValue; cacheKey; cacheValue].

(** The same key in two rules. *)
Definition repeatedRules : list IncludeConfigItem :=
  [leafRule "cache"; leafRule "cache"].

Definition repeatedOutput : Node :=
  outputMapping 0 [cacheKey; cacheValue; cacheKey; cacheValue].

(** The document [database: localhost] with a rule that expects a mapping
    below [database]. *)
Definition localhostValue : Node := scalarNode "!!str" "localhost" 1 11.

Definition scalarDocument : Node :=
  mappingNode [scalarNode "!!str" "database" 1 1; localhostValue] 1 1.

Definition mismatchRules : list IncludeConfigItem :=
  [mkIncludeConfigItem "database" [leafRule "host"]].

(** ** Frames of a call on the store *)

(** Going from [h] to [h'], no node is freed and every node other than
    [outputNode] keeps all its fields. *)
Definition preserves (outputNode : positive) (h h' : gmap positive Cell) : Prop :=
  dom h ⊆ dom h' ∧ ∀ p, p ≠ outputNode → p ∈ dom h → h' !! p = h !! p.

(** Going from [h] to [h'], the node at [outputNode] has only had pointers
    appended to its content, each of them an element of the input's content
    or a node that [h] does not hold. *)
Definition appendsTo (inputNode outputNode : positive)
    (h h' : gmap positive Cell) : Prop :=
  ∀ input out,
    h !! inputNode = Some input → h !! outputNode = Some out →
    ∃ new,
      h' !! outputNode = Some (cellSetContent out (cellContent out ++ new)) ∧
      ∀ q, q ∈ new → q ∈ cellContent input ∨ q ∉ dom h.

(** The store of [{database: {host: localhost, port: 5432}}], the root at
    location 1. *)
Definition scalarCell (tag value : string) (line column : Z) : Cell :=
  mkCell ScalarNode 0%N tag value "" None [] "" "" "" line column.

Definition mappingCell (content : list positive) (line column : Z) : Cell :=
  mkCell MappingNode 0%N "!!map" "" "" None content "" "" "" line column.

Definition outputCell (style : N) (content : list positive) : Cell :=
  mkCell MappingNode style "" "" "" None content "" "" "" 0%Z 0%Z.

Definition sampleStore : gmap positive Cell :=
  list_to_map
    [(1%positive, mappingCell [2; 3]%positive 1 1);
     (2%positive, scalarCell "!!str" "database" 1 1);
     (3%positive, mappingCell [4; 5; 6; 7]%positive 2 3);
     (4%positive, scalarCell "!!str" "host" 2 3);
     (5%positive, scalarCell "!!str" "localhost" 2 9);
     (6%positive, scalarCell "!!str" "port" 3 3);
     (7%positive, scalarCell "!!int" "5432" 3 9)].

Definition sampleStoreRules : list IncludeConfigItem :=
  [mkIncludeConfigItem "database" [leafRule "host"]].

Definition sampleStoreAfter : gmap positive Cell :=
  <[9%positive := outputCell 0 [4; 5]%positive]>
    (<[8%positive := outputCell 0 [2; 9]%positive]> sampleStore).

(** ** Trees that differ in presentation only

    What a parser reads back from the bytes of an encoded tree is not the
    tree itself: the positions are those of the new text; a mapping that
    [filterByRules] built has no tag, where the parser records [!!map]; and
    an empty mapping, written [{}] whatever its style, is read back in flow
    style.  [alike] relates two trees that differ in nothing else: kinds,
    texts, anchors, comments, the tags of all other nodes and the styles of
    all other nodes are the same, node by node. *)

(** [yaml.FlowStyle] *)
Definition FlowStyle : N := 32.

Definition plainStyle (style : N) : Prop := style = 0%N ∨ style = FlowStyle.

Definition mapTag (tag : string) : Prop := tag = "" ∨ tag = "!!map".

#[local] Unset Elimination Schemes.

Inductive alike : Node → Node → Prop :=
| alike_intro n n' :
    Kind n = Kind n' → Value n = Value n' → Anchor n = Anchor n' →
    HeadComment n = HeadComment n' → LineComment n = LineComment n' →
    FootComment n = FootComment n' →
    (Tag n = Tag n' ∨
     Kind n = MappingNode ∧ mapTag (Tag n) ∧ mapTag (Tag n') ∧
     plainStyle (Style n) ∧ plainStyle (Style n')) →
    (Style n = Style n' ∨
     Kind n = MappingNode ∧ Content n = [] ∧
     plainStyle (Style n) ∧ plainStyle (Style n')) →
    option_Forall2 alike (Alias n) (Alias n') →
    Forall2 alike (Content n) (Content n') →
    alike n n'.

#[local] Set Elimination Schemes.

#[local] Unset Elimination Schemes.

(** Same kind, same text, similar content: all that [miniEncode] below
    looks at. *)
Inductive similar : Node → Node → Prop :=
| similar_intro n n' :
    Kind n = Kind n' → Value n = Value n' →
    Forall2 similar (Content n) (Content n') →
    similar n n'.

#[local] Set Elimination Schemes.

(** ** A stand-in for the YAML library on small documents

    [miniEncode] writes a tree of mappings, plain scalars and aliases in
    block style, an empty mapping as [{}] and an alias as [*name];
    [miniUnmarshal] knows the documents listed in it and gives for each what
    [yaml.Unmarshal] gives: the document node a parser builds for the first
    document of the text, with tags and positions, or the parser's error. *)

Definition newline : string := String "010"%char "".

Fixpoint unlines (ls : list string) : string :=
  match ls with
  | [] => ""
  | l :: ls' => l +:+ newline +:+ unlines ls'
  end.

Fixpoint spaces (n : nat) : string :=
  match n with
  | O => ""
  | S n' => " " +:+ spaces n'
  end.

Fixpoint emitPairs (indent level : nat) (n : Node) {struct n} : string :=
  match n with
  | mkNode _ _ _ _ _ _ content _ _ _ _ _ =>
      (fix pairs (c : list Node) : string :=
         match c with
         | keyNode :: valueNode :: rest =>
             spaces (indent * level) +:+ Value keyNode +:+ ":" +:+
             match Kind valueNode, Content valueNode with
             | MappingNode, [] => " {}" +:+ newline
             | MappingNode, _ :: _ => newline +:+ emitPairs indent (S level) valueNode
             | AliasNode, _ => " *" +:+ Value valueNode +:+ newline
             | _, _ => " " +:+ Value valueNode +:+ newline
             end +:+ pairs rest
         | _ => ""
         end) content
  end.

Definition emitDocument (indent : nat) (n : Node) : string :=
  match Kind n, Content n with
  | MappingNode, [] => "{}" +:+ newline
  | MappingNode, _ :: _ => emitPairs indent 0 n
  | _, _ => Value n +:+ newline
  end.

Definition miniEncode (indent : nat) (n : Node) : list byte + string :=
  inl (String.list_byte_of_string (emitDocument indent n)).

Definition documentNode (root : Node) : Node :=
  mkNode DocumentNode 0%N "" "" "" None [root] "" "" "" 1 1.

(** [[
a:
  x: 1
  y: 2
]] *)
Definition twoFieldsText : string := unlines ["a:"; "  x: 1"; "  y: 2"].

Definition twoFieldsTree : Node :=
  mappingNode
    [scalarNode "!!str" "a" 1 1;
     mappingNode [scalarNode "!!str" "x" 2 3; scalarNode "!!int" "1" 2 6;
                  scalarNode "!!str" "y" 3 3; scalarNode "!!int" "2" 3 6] 2 3] 1 1.

(** [[
a:
  x: 1
]] *)
Definition oneFieldText : string := unlines ["a:"; "  x: 1"].

Definition oneFieldTree : Node :=
  mappingNode
    [scalarNode "!!str" "a" 1 1;
     mappingNode [scalarNode "!!str" "x" 2 3; scalarNode "!!int" "1" 2 6] 2 3] 1 1.

(** [[
a:
  x: 1
a:
  y: 2
]] *)
Definition repeatedKeyText : string := unlines ["a:"; "  x: 1"; "a:"; "  y: 2"].

Definition repeatedKeyTree : Node :=
  mappingNode
    [scalarNode "!!str" "a" 1 1;
     mappingNode [scalarNode "!!str" "x" 2 3; scalarNode "!!int" "1" 2 6] 2 3;
     scalarNode "!!str" "a" 3 1;
     mappingNode [scalarNode "!!str" "y" 4 3; scalarNode "!!int" "2" 4 6] 4 3] 1 1.

(** [[
a:
  x: 1
a: {}
]] *)
Definition emptiedKeyText : string := unlines ["a:"; "  x: 1"; "a: {}"].

(** [[
{}
]] *)
Definition emptyMappingText : string := unlines ["{}"].

Definition emptyMappingTree : Node :=
  mkNode MappingNode FlowStyle "!!map" "" "" None [] "" "" "" 1 1.

(** [[
base: &b
  x: 1
a: *b
]] *)
Definition anchoredText : string := unlines ["base: &b"; "  x: 1"; "a: *b"].

Definition anchoredValue : Node :=
  mkNode MappingNode 0 "!!map" "" "b" None
         [scalarNode "!!str" "x" 2 3; scalarNode "!!int" "1" 2 6] "" "" "" 2 3.

Definition aliasValue : Node :=
  mkNode AliasNode 0 "" "b" "" (Some anchoredValue) [] "" "" "" 3 4.

Definition anchoredTree : Node :=
  mappingNode [scalarNode "!!str" "base" 1 1; anchoredValue;
               scalarNode "!!str" "a" 3 1; aliasValue] 1 1.

(** [[
a: *b
]] *)
Definition danglingAliasText : string := unlines ["a: *b"].

Definition unknownAnchorMsg : string := "yaml: unknown anchor 'b' referenced".

(** A stream of two documents:
[[
a: 1
---
b: 2
]] *)
Definition twoDocumentsText : string := unlines ["a: 1"; "---"; "b: 2"].

Definition firstDocumentText : string := unlines ["a: 1"].

Definition firstDocumentTree : Node :=
  mappingNode [scalarNode "!!str" "a" 1 1; scalarNode "!!int" "1" 1 4] 1 1.

Definition miniUnmarshal (input : list byte) : Node + string :=
  let text := String.string_of_list_byte input in
  if decide (text = twoFieldsText) then inl (documentNode twoFieldsTree)
  else if decide (text = oneFieldText) then inl (documentNode oneFieldTree)
  else if decide (text = repeatedKeyText) then inl (documentNode repeatedKeyTree)
  else if decide (text = emptyMappingText) then inl (documentNode emptyMappingTree)
  else if decide (text = anchoredText) then inl (documentNode anchoredTree)
  else if decide (text = danglingAliasText) then inr unknownAnchorMsg
  else if decide (text = twoDocumentsText) then inl (documentNode firstDocumentTree)
  else if decide (text = firstDocumentText) then inl (documentNode firstDocumentTree)
  else inr "document not in the table".

Definition miniYaml : Codec := mkCodec miniUnmarshal miniEncode.

(** One rule for [a.x]; and two rules with the key [a]. *)
Definition oneFieldRules : list IncludeConfigItem :=
  [mkIncludeConfigItem "a" [leafRule "x"]].

Definition repeatedKeyRules : list IncludeConfigItem :=
  [mkIncludeConfigItem "a" [leafRule "x"]; mkIncludeConfigItem "a" [leafRule "y"]].

(** Two rules for the key [a], which [repeatedKeyTree] holds twice: both
    select the first [a] of the input. *)
Definition firstMatchRules : list IncludeConfigItem :=
  [leafRule "a"; mkIncludeConfigItem "a" [leafRule "x"]].

Definition firstMatchOutput : Node :=
  outputMapping 0
    [scalarNode "!!str" "a" 1 1;
     mappingNode [scalarNode "!!str" "x" 2 3; scalarNode "!!int" "1" 2 6] 2 3;
     scalarNode "!!str" "a" 1 1;
     outputMapping 0 [scalarNode "!!str" "x" 2 3; scalarNode "!!int" "1" 2 6]].

(** ** Trees held by a store

    [represents f p n]: the store [f] holds the tree [n] at location [p],
    cell by cell. *)

Definition cellOf (n : Node) (alias : option positive) (content : list positive) : Cell :=
  mkCell (Kind n) (Style n) (Tag n) (Value n) (Anchor n) alias content
         (HeadComment n) (LineComment n) (FootComment n) (Line n) (Column n).

#[local] Unset Elimination Schemes.

Inductive represents (f : gmap positive Cell) : positive → Node → Prop :=
| represents_intro p n alias content :
    f !! p = Some (cellOf n alias content) →
    option_Forall2 (represents f) alias (Alias n) →
    Forall2 (represents f) content (Content n) →
    represents f p n.

#[local] Set Elimination Schemes.

(** The node being built: its cell is in [h], what it points to is held by
    the part [f] of the store that the call does not write to. *)
Definition holdsOutput (f h : gmap positive Cell) (p : positive) (n : Node) : Prop :=
  ∃ alias content,
    h !! p = Some (cellOf n alias content) ∧
    option_Forall2 (represents f) alias (Alias n) ∧
    Forall2 (represents f) content (Content n).

(** Two runs end the same way, with related results. *)
Definition agree {A B} (rel : A → B → Prop) (m : outcome A) (m' : outcome B) : Prop :=
  match m, m' with
  | Ok a, Ok b => rel a b
  | Error msg, Error msg' => msg = msg'
  | Fatal msg, Fatal msg' => msg = msg'
  | Panic msg, Panic msg' => msg = msg'
  | _, _ => False
  end.

(** After a call that started in [h] with [f] as the part not written to:
    the output is held by [h'] over a larger part [f'], which has grown by
    nodes allocated during the call only. *)
Definition builtOn (f h : gmap positive Cell) (outputNode : positive)
    (h' : gmap positive Cell) (output : Node) : Prop :=
  ∃ f', f ⊆ f' ∧ f' ⊆ h' ∧
        (∀ p, p ∈ dom f' → p ∈ dom h → p ∈ dom f) ∧
        holdsOutput f' h' outputNode output.

(** ** Reading a tree by key paths

    The value under a key of a mapping is the value of the first pair with
    that key text, as a reader of the document sees it; a path of keys is
    followed from the root. *)

Fixpoint firstPair (key : string) (pairs : list (Node * Node)) : option (Node * Node) :=
  match pairs with
  | [] => None
  | (keyNode, valueNode) :: rest =>
      if decide (Value keyNode = key) then Some (keyNode, valueNode)
      else firstPair key rest
  end.

Definition lookupValue (key : string) (n : Node) : option Node :=
  if decide (Kind n = MappingNode) then snd <$> firstPair key (pairsOf (Content n))
  else None.

Fixpoint valueAt (path : list string) (n : Node) : option Node :=
  match path with
  | [] => Some n
  | key :: rest =>
      match lookupValue key n with
      | Some valueNode => valueAt rest valueNode
      | None => None
      end
  end.

(** The first rule of a forest with a given key. *)
Fixpoint firstRule (key : string) (rules : list IncludeConfigItem) :
    option IncludeConfigItem :=
  match rules with
  | [] => None
  | rule :: rest => if decide (Key rule = key) then Some rule else firstRule key rest
  end.

(** A path that the rules include with everything below it: it follows
    first rules down to a rule without nested rules, and may go on below. *)
Inductive selectsWhole : list IncludeConfigItem → list string → Prop :=
| selectsWhole_leaf rules key rest rule :
    firstRule key rules = Some rule → Include rule = [] →
    selectsWhole rules (key :: rest)
| selectsWhole_nested rules key rest rule :
    firstRule key rules = Some rule → 0 < length (Include rule) →
    selectsWhole (Include rule) rest →
    selectsWhole rules (key :: rest).

(** The tree that [sampleStore] holds at location 1. *)
Definition sampleStoreTree : Node :=
  mappingNode
    [scalarNode "!!str" "database" 1 1;
     mappingNode [scalarNode "!!str" "host" 2 3; scalarNode "!!str" "localhost" 2 9;
                  scalarNode "!!str" "port" 3 3; scalarNode "!!int" "5432" 3 9] 2 3] 1 1.

(** ** The command around the engine: configuration, files and network

    The rest of [cmd/yamltrimmer.go].  What the code calls outside the
    repository is an [Env]: the YAML library, [md5.Sum], [filepath.Abs] and
    [filepath.Join], [os.UserHomeDir], the HTTP server the requests reach,
    and the failures of the operating system that do not depend on which
    files exist.  The files and directories themselves are a [World], which
    the code reads and writes. *)

Module CacheConfig.
Record t : Type := mk {
  Enabled : bool;
  Path : string
}.
End CacheConfig.

Module Configuration.
Record t : Type := mk {
  Input : string;
  Output : string;
  Cache : CacheConfig.t;
  Include : list IncludeConfigItem
}.

(** [config.Cache.Path = path] and [config.Output = path] *)
Definition setCachePath (config : t) (path : string) : t :=
  mk (Input config) (Output config)
     (CacheConfig.mk (CacheConfig.Enabled (Cache config)) path) (Include config).

Definition setOutput (config : t) (path : string) : t :=
  mk (Input config) path (Cache config) (Include config).
End Configuration.

(** An HTTP response as the code looks at it: the status code, the value of
    the [ETag] header (empty when the header is absent), the bytes the body
    delivers and the error that ends the body when it does not end in EOF. *)
Record Response : Type := mkResponse {
  StatusCode : Z;
  ETagHeader : string;
  Body : list byte;
  BodyError : option string
}.

Record World : Type := mkWorld {
  files : gmap string (list byte);
  dirs : gset string
}.

Record Env : Type := mkEnv {
  yamlCodec : Codec;
  (** [yaml.NewDecoder(file).Decode(&config)] on what reading the file gives *)
  decodeConfiguration : list byte + string → Configuration.t + string;
  md5Sum : list byte → list byte;
  filepathAbs : string → string + string;
  filepathJoin : string → string → string;
  userHomeDir : string + string;
  (** [http.NewRequest("GET", url, nil)] *)
  newRequestError : string → option string;
  (** a GET of the URL, with the [If-None-Match] header when one is set *)
  httpDo : string → option string → Response + string;
  statFailure : string → option string;
  writeFailure : string → option string;
  (** [os.Mkdir] of one directory *)
  mkdirFailure : string → option string;
  (** how far a write that fails got: [None] when the file could not be
      opened, [Some n] when it was opened and [n] bytes reached it *)
  writeProgress : string → option nat
}.

Definition notExistMsg (op path : string) : string :=
  op +:+ " " +:+ path +:+ ": no such file or directory".

Definition isDirectoryMsg (path : string) : string :=
  "read " +:+ path +:+ ": is a directory".

(** What reading an opened path gives. *)
Definition readPath (path : string) (w : World) : option (list byte + string) :=
  match files w !! path with
  | Some content => Some (inl content)
  | None => if decide (path ∈ dirs w) then Some (inr (isDirectoryMsg path)) else None
  end.

(** [os.ReadFile] *)
Definition osReadFile (path : string) (w : World) : list byte + string :=
  match readPath path w with
  | Some r => r
  | None => inr (notExistMsg "open" path)
  end.

Inductive statResult : Type :=
| StatOk
| StatNotExist (msg : string)
| StatError (msg : string).

(** [os.Stat]; [StatNotExist] is an error for which [os.IsNotExist] holds. *)
Definition osStat (env : Env) (path : string) (w : World) : statResult :=
  match statFailure env path with
  | Some msg => StatError msg
  | None =>
      if decide (is_Some (files w !! path) ∨ path ∈ dirs w) then StatOk
      else StatNotExist (notExistMsg "stat" path)
  end.

(** [os.Create] followed by writes, and [os.WriteFile]: the file holds
    exactly [content] afterwards. *)
Definition writeTo (path : string) (content : list byte) (w : World) : World :=
  mkWorld (<[path := content]> (files w)) (dirs w).

Definition makeDir (path : string) (w : World) : World :=
  mkWorld (files w) ({[path]} ∪ dirs w).

(** Code that reads and writes the world and may fail. *)
Definition action (A : Type) : Type := World → World * outcome A.

Definition pureAction {A} (a : A) : action A := λ w, (w, Ok a).

Definition actionBind {A B} (m : action A) (k : A → action B) : action B :=
  λ w,
    match m w with
    | (w', Ok a) => k a w'
    | (w', Error msg) => (w', Error msg)
    | (w', Fatal msg) => (w', Fatal msg)
    | (w', Panic msg) => (w', Panic msg)
    end.

Notation "x ⇐ m ; k" := (actionBind m (λ x, k))
  (at level 20, m at level 100, k at level 200, only parsing).

(** A Go call returning [(value, error)] that leaves the world alone. *)
Definition liftResult {A} (r : A + string) : action A :=
  λ w, (w, match r with inl a => Ok a | inr msg => Error msg end).

(** [if err != nil { logrus.Fatalf(prefix + "%v", err) }] *)
Definition orFatal {A} (prefix : string) (m : action A) : action A :=
  λ w,
    match m w with
    | (w', Error msg) => (w', Fatal (prefix +:+ msg))
    | r => r
    end.

Definition fatalf {A} (msg : string) : action A := λ w, (w, Fatal msg).

(** [os.WriteFile]: the file is opened, which creates or truncates it, and
    then written.  A call that fails before the file is open leaves it as it
    was; one that fails later leaves the part that was written. *)
Definition osWriteFile (env : Env) (path : string) (content : list byte) : action unit :=
  λ w,
    match writeFailure env path with
    | Some msg =>
        (match writeProgress env path with
         | Some n => writeTo path (take n content) w
         | None => w
         end, Error msg)
    | None => (writeTo path content w, Ok ())
    end.

(** The directory a path lies in, named without a trailing separator: the
    path without its trailing separators, its last element and the
    separators before that; [None] when nothing is left, as for [/home] and
    for a relative [home], whose parents (the root, the working directory)
    exist. *)
Fixpoint dropWhile {A} (f : A → bool) (l : list A) : list A :=
  match l with
  | [] => []
  | x :: l' => if f x then dropWhile f l' else l
  end.

Definition isPathSeparator (c : ascii) : bool := bool_decide (c = "/"%char).

Definition parentDir (path : string) : option string :=
  let reversed := rev (String.list_ascii_of_string path) in
  let reversed := dropWhile isPathSeparator reversed in
  let reversed := dropWhile (λ c, negb (isPathSeparator c)) reversed in
  let reversed := dropWhile isPathSeparator reversed in
  match reversed with
  | [] => None
  | _ :: _ => Some (String.string_of_list_ascii (rev reversed))
  end.

(** The parent of a path, the parent of that, and so on. *)
Fixpoint parentsFrom (fuel : nat) (path : string) : list string :=
  match fuel with
  | O => []
  | S fuel' =>
      match parentDir path with
      | None => []
      | Some parent => parent :: parentsFrom fuel' parent
      end
  end.

Definition parentDirs (path : string) : list string :=
  parentsFrom (String.length path) path.

Definition notADirectoryMsg (path : string) : string :=
  "mkdir " +:+ path +:+ ": not a directory".

(** [os.MkdirAll] on a path and the chain of its parents, nearest first: a
    path that exists ends the call, with an error when it is no directory;
    otherwise the parents are made first and then the directory itself, so a
    call that fails may have made some of the parents.  Paths are separated
    by [/]. *)
Fixpoint mkdirAllChain (env : Env) (chain : list string) : action unit :=
  match chain with
  | [] => pureAction ()
  | path :: parents =>
      λ w,
        match osStat env path w with
        | StatOk =>
            if decide (path ∈ dirs w) then (w, Ok ())
            else (w, Error (notADirectoryMsg path))
        | _ =>
            match mkdirAllChain env parents w with
            | (w, Ok _) =>
                match mkdirFailure env path with
                | Some msg => (w, Error msg)
                | None => (makeDir path w, Ok ())
                end
            | failed => failed
            end
        end
  end.

Definition osMkdirAll (env : Env) (path : string) : action unit :=
  mkdirAllChain env (path :: parentDirs path).

(** [func parseConfiguration(filePath string)], returning the configuration
    or an error. *)
Definition parseConfiguration (env : Env) (filePath : string) : action Configuration.t :=
  λ w,
    match readPath filePath w with
    | None => (w, Error ("error opening file: " +:+ notExistMsg "open" filePath))
    | Some read =>
        match decodeConfiguration env read with
        | inr msg => (w, Error ("error parsing YAML: " +:+ msg))
        | inl config => (w, Ok config)
        end
    end.

(** [func isURL(str string) bool] *)
Definition isURL (str : string) : bool :=
  String.prefix "http://" str || String.prefix "https://" str.

(** [func isFile(str string) bool] *)
Definition isFile (env : Env) (str : string) (w : World) : bool :=
  match osStat env str w with
  | StatOk => negb (isURL str)
  | _ => false
  end.

(** [func downloadFile(url string) ([]byte, error)] *)
Definition downloadFile (env : Env) (url : string) : action (list byte) :=
  λ w,
    match httpDo env url None with
    | inr msg => (w, Error ("error downloading file: " +:+ msg))
    | inl resp =>
        match BodyError resp with
        | Some msg => (w, Error ("error reading file body: " +:+ msg))
        | None => (w, Ok (Body resp))
        end
    end.

(** The ETag the cache holds: the content of the ETag file as a string, or
    the empty string when the file cannot be read. *)
Definition storedEtagOf (etagFilePath : string) (w : World) : string :=
  match osReadFile etagFilePath w with
  | inl etagFile => String.string_of_list_byte etagFile
  | inr _ => ""
  end.

(** [if storedEtag != "" { req.Header.Set("If-None-Match", storedEtag) }]:
    the header of the request. *)
Definition ifNoneMatch (storedEtag : string) : option string :=
  if decide (storedEtag ≠ "") then Some storedEtag else None.

(** [func checkCacheAndDownload(url, localFilePath, etagFilePath string) error] *)
Definition checkCacheAndDownload (env : Env) (url localFilePath etagFilePath : string) :
    action unit :=
  λ w,
    let storedEtag := storedEtagOf etagFilePath w in
    match newRequestError env url with
    | Some msg => (w, Error ("failed to create HTTP request: " +:+ msg))
    | None =>
        match httpDo env url (ifNoneMatch storedEtag) with
        | inr msg => (w, Error ("failed to make HTTP request: " +:+ msg))
        | inl resp =>
            if decide (StatusCode resp = 304%Z) then (w, Ok ())
            else if decide (StatusCode resp ≠ 200%Z) then
              (w, Error ("unexpected status code: " +:+ pretty (StatusCode resp)))
            else
              let newEtag := ETagHeader resp in
              match writeFailure env localFilePath with
              | Some msg => (w, Error ("failed to create local file: " +:+ msg))
              | None =>
                  let w := writeTo localFilePath (Body resp) w in
                  match BodyError resp with
                  | Some msg =>
                      (w, Error ("failed to write content to local file: " +:+ msg))
                  | None =>
                      if decide (newEtag ≠ "") then
                        match osWriteFile env etagFilePath
                                (String.list_byte_of_string newEtag) w with
                        | (w, Error msg) =>
                            (w, Error ("failed to write ETag to file: " +:+ msg))
                        | r => r
                        end
                      else (w, Ok ())
                  end
              end
        end
    end.

(** [fmt.Sprintf("%x", sum)] for a byte array: two lower-case hexadecimal
    digits for each byte. *)
Definition hexDigit (n : nat) : ascii :=
  nth n (String.list_ascii_of_string "0123456789abcdef") "0"%char.

Fixpoint hexString (bs : list byte) : string :=
  match bs with
  | [] => ""
  | b :: bs' =>
      String (hexDigit (Byte.to_nat b / 16))
        (String (hexDigit (Byte.to_nat b mod 16)) (hexString bs'))
  end.

(** [func generateFileName(url, extension string) string] *)
Definition generateFileName (env : Env) (url extension : string) : string :=
  let hash := hexString (md5Sum env (String.list_byte_of_string url)) in
  if decide (extension = "") then hash
  else hash +:+ "." +:+ extension.

(** [func main()], from the parsed flags on: [configPath] is the value of
    [-config]; [-verbose] only turns on debug logging. *)
Definition main (env : Env) (configPath : string) : action unit :=
  absPath ⇐ orFatal "Failed to resolve the configuration file path: "
              (liftResult (filepathAbs env configPath));
  config ⇐ orFatal "Failed to parse configuration: " (parseConfiguration env absPath);
  config ⇐
    (if isURL (Configuration.Input config)
        && CacheConfig.Enabled (Configuration.Cache config) then
       config ⇐
         (if decide (CacheConfig.Path (Configuration.Cache config) = "") then
            homeDir ⇐ orFatal "Failed to get user home directory: "
                        (liftResult (userHomeDir env));
            pureAction (Configuration.setCachePath config
                          (filepathJoin env homeDir ".yamltrimmer-cache"))
          else pureAction config);
       absCachePath ⇐ orFatal "Failed to resolve the cache path: "
                        (liftResult (filepathAbs env
                                       (CacheConfig.Path (Configuration.Cache config))));
       let config := Configuration.setCachePath config absCachePath in
       _ ⇐ (λ w,
              match osStat env (CacheConfig.Path (Configuration.Cache config)) w with
              | StatNotExist _ =>
                  orFatal "Failed to create cache directory: "
                    (osMkdirAll env (CacheConfig.Path (Configuration.Cache config))) w
              | StatError msg => (w, Fatal ("Failed to check cache directory: " +:+ msg))
              | StatOk => (w, Ok ())
              end);
       pureAction config
     else pureAction config);
  absOutputPath ⇐ orFatal "Failed to resolve the output file path: "
                    (liftResult (filepathAbs env (Configuration.Output config)));
  let config := Configuration.setOutput config absOutputPath in
  content ⇐
    (if isURL (Configuration.Input config) then
       if CacheConfig.Enabled (Configuration.Cache config) then
         let localFileName := generateFileName env (Configuration.Input config) "" in
         let etagFileName := generateFileName env (Configuration.Input config) "etag" in
         let localFilePath :=
           filepathJoin env (CacheConfig.Path (Configuration.Cache config)) localFileName in
         let etagFilePath :=
           filepathJoin env (CacheConfig.Path (Configuration.Cache config)) etagFileName in
         _ ⇐ orFatal "Failed to download file: "
               (checkCacheAndDownload env (Configuration.Input config)
                  localFilePath etagFilePath);
         orFatal "Failed to read input file from cache: "
           (λ w, liftResult (osReadFile localFilePath w) w)
       else
         orFatal "Failed to download input file: "
           (downloadFile env (Configuration.Input config))
     else
       λ w,
         if isFile env (Configuration.Input config) w then
           orFatal "Failed to read input file: "
             (liftResult (osReadFile (Configuration.Input config) w)) w
         else (w, Fatal "Invalid input: not a URL or a valid file path"));
  if decide (length content = 0) then fatalf "Input data is empty"
  else
    trimmedContent ⇐
      orFatal "Failed to trim input data: "
        (λ w, (w, trim (yamlCodec env) content (Configuration.Include config)));
    if decide (length trimmedContent = 0) then fatalf "Trimmed data is empty"
    else
      orFatal "Failed to write output file: "
        (osWriteFile env (Configuration.Output config) trimmedContent).

(** ** A stand-in environment

    A server with one document, [twoFieldsText] under the entity tag [v1],
    which answers 304 to a request that carries this tag and 404 for any
    other URL; paths resolve under [/work]; nothing fails in the operating
    system.  [miniYaml] stands for the YAML library and the configuration
    decoder knows one configuration file. *)

Definition sampleURL : string := "https://example.org/app.yaml".

Definition sampleServer (url : string) (header : option string) : Response + string :=
  if decide (url = sampleURL) then
    if decide (header = Some "v1") then inl (mkResponse 304 "v1" [] None)
    else inl (mkResponse 200 "v1" (String.list_byte_of_string twoFieldsText) None)
  else inl (mkResponse 404 "" (String.list_byte_of_string "not found") None).

(** The same server when the connection breaks after the first line of the
    body. *)
Definition brokenServer (url : string) (header : option string) : Response + string :=
  inl (mkResponse 200 "v2" (String.list_byte_of_string (unlines ["a:"]))
         (Some "unexpected EOF")).

Definition sampleAbs (path : string) : string + string :=
  inl (if String.prefix "/" path then path else "/work/" +:+ path).

Definition sampleJoin (dir name : string) : string := dir +:+ "/" +:+ name.

(** A checksum stand-in: the first 16 bytes, padded with zero bytes. *)
Definition sampleSum (data : list byte) : list byte :=
  take 16 (data ++ replicate 16 x00).

Definition sampleConfigurationText : string := "cached".

Definition sampleConfiguration (cached : bool) (input : string) : Configuration.t :=
  Configuration.mk input "out.yaml" (CacheConfig.mk cached "") oneFieldRules.

(** The decoder knows three configuration files, by their whole text. *)
Definition sampleDecode (read : list byte + string) : Configuration.t + string :=
  match read with
  | inr msg => inr ("yaml: input error: " +:+ msg)
  | inl content =>
      let text := String.string_of_list_byte content in
      if decide (text = "cached") then inl (sampleConfiguration true sampleURL)
      else if decide (text = "direct") then inl (sampleConfiguration false sampleURL)
      else if decide (text = "local") then inl (sampleConfiguration false "in.yaml")
      else inr "yaml: unmarshal errors"
  end.

Definition sampleEnvWith (server : string → option string → Response + string) : Env :=
  mkEnv miniYaml sampleDecode sampleSum sampleAbs sampleJoin (inl "/home/user")
        (λ _, None) server (λ _, None) (λ _, None) (λ _, None) (λ _, None).

Definition sampleEnv : Env := sampleEnvWith sampleServer.

Definition brokenEnv : Env := sampleEnvWith brokenServer.

Definition emptyWorld : World := mkWorld ∅ ∅.

(** A cache that holds the document under the tag [v1]. *)
Definition cachedWorld : World :=
  writeTo "/cache/app.etag" (String.list_byte_of_string "v1")
    (writeTo "/cache/app" (String.list_byte_of_string twoFieldsText) emptyWorld).

(** The cache after the connection broke while the document was replaced. *)
Definition brokenWorld : World :=
  writeTo "/cache/app" (String.list_byte_of_string (unlines ["a:"])) cachedWorld.

(** A server that answers every request with status 500 and a YAML body. *)
Definition errorPageEnv : Env :=
  sampleEnvWith
    (λ _ _, inl (mkResponse 500 "" (String.list_byte_of_string twoFieldsText) None)).

(** The working directory with the configuration file [text]. *)
Definition configuredWorld (text : string) : World :=
  writeTo "/work/config.yaml" (String.list_byte_of_string text) emptyWorld.

Definition sampleCachePath : string := "/home/user/.yamltrimmer-cache".

(** A cache directory that holds the ETag file of [sampleURL] and no content
    file. *)
Definition staleWorld : World :=
  writeTo (sampleJoin sampleCachePath (generateFileName sampleEnv sampleURL "etag"))
    (String.list_byte_of_string "v1")
    (makeDir sampleCachePath (configuredWorld "cached")).

(** The disk fills up after three bytes of the output file. *)
Definition fullDiskEnv : Env :=
  mkEnv miniYaml sampleDecode sampleSum sampleAbs sampleJoin (inl "/home/user")
        (λ _, None) sampleServer (λ _, None)
        (λ path, if decide (path = "/work/out.yaml")
                 then Some "write /work/out.yaml: no space left on device" else None)
        (λ _, None) (λ _, Some 3).

(** * Properties *)

(** ** Induction on rule forests *)

Section rules_induction.
Variable P : IncludeConfigItem → Prop.
Variable Q : list IncludeConfigItem → Prop.
Hypothesis Hitem : ∀ key include, Q include → P (mkIncludeConfigItem key include).
Hypothesis Hnil : Q [].
Hypothesis Hcons : ∀ rule rest, P rule → Q rest → Q (rule :: rest).

Fixpoint rule_forest_ind (rule : IncludeConfigItem) : P rule :=
  match rule with
  | mkIncludeConfigItem key include =>
      Hitem key include
        ((fix forest (rs : list IncludeConfigItem) : Q rs :=
            match rs with
            | [] => Hnil
            | r :: rs' => Hcons r rs' (rule_forest_ind r) (forest rs')
            end) include)
  end.

Lemma forest_rule_ind (rules : list IncludeConfigItem) : Q rules.
Proof.
  induction rules as [|rule rest IH]; [exact Hnil|].
  apply Hcons; [apply rule_forest_ind | exact IH].
Qed.
End rules_induction.

(** ** The outcome monad *)

Lemma bind_Ok {A B} (f : A → outcome B) (m : outcome A) (b : B) :
  m ≫= f = Ok b ↔ ∃ a, m = Ok a ∧ f a = Ok b.
Proof.
  destruct m; simpl; split; try (intros [? [? ?]]); try discriminate; eauto.
  intros. simplify_eq. done.
Qed.

(** ** The scan *)

Lemma scanFrom_eq key content i :
  scanFrom key content i =
  if decide (i < length content) then
    match content !! i, content !! (i + 1) with
    | Some keyNode, Some valueNode =>
        if decide (Value keyNode = key) then Found i keyNode valueNode
        else scanFrom key content (i + 2)
    | Some _, None => OutOfRange (i + 1)
    | None, _ => OutOfRange i
    end
  else NotFound.
Proof.
  rewrite scanFrom_equation_1.
  destruct (decide (i < length content)); simpl; done.
Qed.

Lemma scanFrom_findPair key content i :
  scanView (scanFrom key content i) = findPair key (drop i content).
Proof.
  remember (length content - i) as m eqn:Hm.
  revert i Hm. induction (lt_wf m) as [m _ IH]. intros i ->.
  rewrite scanFrom_eq.
  destruct (decide (i < length content)) as [Hlt|Hge];
    [|by rewrite drop_ge by lia].
  destruct (content !! i) as [keyNode|] eqn:Hk;
    [|apply lookup_ge_None in Hk; lia].
  rewrite (drop_S _ _ _ Hk). simpl.
  destruct (content !! (i + 1)) as [valueNode|] eqn:Hv.
  - replace (i + 1) with (S i) in Hv by lia.
    rewrite (drop_S _ _ _ Hv).
    destruct (decide (Value keyNode = key)); [done|].
    replace (i + 2) with (S (S i)) by lia.
    apply (IH (length content - S (S i))); lia.
  - apply lookup_ge_None in Hv.
    rewrite drop_ge by lia. done.
Qed.

Lemma list_pair_ind {A} (P : list A → Prop) :
  P [] → (∀ x, P [x]) → (∀ x y l, P l → P (x :: y :: l)) → ∀ l, P l.
Proof.
  intros Hnil Hone Hpair l.
  enough (P l ∧ ∀ x, P (x :: l)) as [? _] by done.
  induction l as [|y l [IH1 IH2]]; split; auto.
Qed.

Lemma findPair_Found key content keyNode valueNode :
  findPair key content = Some (Some (keyNode, valueNode)) →
  Value keyNode = key ∧ (keyNode, valueNode) ∈ pairsOf content.
Proof.
  induction content as [|x|x y l IH] using list_pair_ind; simpl; try done.
  destruct (decide (Value x = key)).
  - intros [= -> ->]. split; [done|]. apply list_elem_of_here.
  - intros [? ?]%IH. split; [done|]. by apply list_elem_of_further.
Qed.

Lemma findPair_NotFound key content :
  findPair key content = Some None ↔
  Nat.Even (length content) ∧ key ∉ keyTexts content.
Proof.
  unfold keyTexts, keyNodes.
  induction content as [|x|x y l IH] using list_pair_ind; simpl.
  - split; [|done]. intros _. split; [by exists 0|]. apply not_elem_of_nil.
  - split; [done|]. intros [[m Hm] _]. lia.
  - rewrite Nat.Even_succ_succ. destruct (decide (Value x = key)) as [<-|Hne].
    + split; [done|]. intros [_ []]. apply list_elem_of_here.
    + rewrite IH, not_elem_of_cons. intuition congruence.
Qed.

Lemma findPair_OutOfRange key content :
  findPair key content = None →
  Nat.Odd (length content) ∧ key ∉ keyTexts content.
Proof.
  unfold keyTexts, keyNodes.
  induction content as [|x|x y l IH] using list_pair_ind; simpl; try done.
  - intros _. split; [by exists 0|]. apply not_elem_of_nil.
  - rewrite Nat.Odd_succ_succ. destruct (decide (Value x = key)); [done|].
    rewrite not_elem_of_cons. intuition congruence.
Qed.

Lemma scanFrom_view key content :
  scanView (scanFrom key content 0) = findPair key content.
Proof. by rewrite scanFrom_findPair, drop_0. Qed.

Lemma scanFrom_Found_present key content i keyNode valueNode :
  scanFrom key content 0 = Found i keyNode valueNode →
  Value keyNode = key ∧ key ∈ keyTexts content.
Proof.
  intros Hscan. pose proof (scanFrom_view key content) as Hview.
  rewrite Hscan in Hview. symmetry in Hview.
  apply findPair_Found in Hview as [<- Hin]. split; [done|].
  unfold keyTexts, keyNodes. apply list_elem_of_fmap. exists keyNode.
  split; [done|]. apply list_elem_of_fmap. by exists (keyNode, valueNode).
Qed.

Lemma scanFrom_NotFound key content :
  scanFrom key content 0 = NotFound ↔
  Nat.Even (length content) ∧ key ∉ keyTexts content.
Proof.
  rewrite <- findPair_NotFound, <- scanFrom_view.
  destruct (scanFrom key content 0); simpl; naive_solver.
Qed.

Lemma scanFrom_OutOfRange key content i :
  scanFrom key content 0 = OutOfRange i →
  Nat.Odd (length content) ∧ key ∉ keyTexts content.
Proof.
  intros Hscan. apply findPair_OutOfRange.
  by rewrite <- scanFrom_view, Hscan.
Qed.

(** ** [filterByRules] appends the entries of its rules *)

Lemma setContent_app_nil n : setContent n (Content n ++ []) = n.
Proof. destruct n. unfold setContent. simpl. by rewrite app_nil_r. Qed.

Lemma rangeBody_eq key include inputNode outputNode :
  rangeBody (mkIncludeConfigItem key include) inputNode outputNode =
  match scanFrom key (Content inputNode) 0 with
  | OutOfRange _ => Panic indexOutOfRangeMsg
  | NotFound => Ok outputNode
  | Found _ keyNode valueNode =>
      let outputNode := appendContent outputNode keyNode in
      if decide (0 < length include) then
        nestedOutputNode ← filterByRules include valueNode zeroNode;
        Ok (appendContent outputNode nestedOutputNode)
      else Ok (appendContent outputNode valueNode)
  end.
Proof. done. Qed.

Lemma rangeBody_entries rule inputNode outputNode :
  rangeBody rule inputNode outputNode =
  entries ← ruleEntries rule inputNode;
  Ok (setContent outputNode (Content outputNode ++ entries)).
Proof.
  destruct rule as [key include]. rewrite rangeBody_eq. unfold ruleEntries. simpl.
  destruct (scanFrom key (Content inputNode) 0) as [i keyNode valueNode| |i]; simpl.
  - destruct (decide (0 < length include)); simpl.
    + destruct (filterByRules include valueNode zeroNode); simpl; try done.
      unfold appendContent. simpl. by rewrite <- app_assoc.
    + unfold appendContent. simpl. by rewrite <- app_assoc.
  - by rewrite setContent_app_nil.
  - done.
Qed.

Lemma rangeRules_entries rules inputNode outputNode :
  rangeRules (λ rule out, rangeBody rule inputNode out) rules outputNode =
  entries ← forestEntries rules inputNode;
  Ok (setContent outputNode (Content outputNode ++ entries)).
Proof.
  revert outputNode. induction rules as [|rule rest IH]; intros outputNode; simpl.
  - by rewrite setContent_app_nil.
  - rewrite rangeBody_entries.
    destruct (ruleEntries rule inputNode) as [entries| | |]; simpl; try done.
    rewrite IH.
    destruct (forestEntries rest inputNode) as [entries'| | |]; simpl; try done.
    by rewrite <- app_assoc.
Qed.

Lemma filterByRules_entries rules inputNode outputNode :
  filterByRules rules inputNode outputNode =
  if decide (Kind inputNode ≠ MappingNode) then Fatal notAMappingMsg
  else
    entries ← forestEntries rules inputNode;
    Ok (setContent (setStyle (setKind outputNode MappingNode) (Style inputNode))
                   (Content outputNode ++ entries)).
Proof.
  unfold filterByRules, filterByRulesWith.
  destruct (decide (Kind inputNode ≠ MappingNode)); [done|].
  by rewrite rangeRules_entries.
Qed.

Lemma forestEntries_app rules rules' inputNode :
  forestEntries (rules ++ rules') inputNode =
  entries ← forestEntries rules inputNode;
  entries' ← forestEntries rules' inputNode;
  Ok (entries ++ entries').
Proof.
  induction rules as [|rule rest IH]; simpl.
  - by destruct (forestEntries rules' inputNode).
  - destruct (ruleEntries rule inputNode) as [e| | |]; simpl; try done.
    rewrite IH.
    destruct (forestEntries rest inputNode) as [e'| | |]; simpl; try done.
    destruct (forestEntries rules' inputNode) as [e''| | |]; simpl; try done.
    by rewrite app_assoc.
Qed.

(** ** The entries of a rule and of a forest *)

Lemma ruleEntries_Ok rule inputNode entries :
  ruleEntries rule inputNode = Ok entries →
  (scanFrom (Key rule) (Content inputNode) 0 = NotFound ∧ entries = []) ∨
  (∃ i keyNode valueNode node,
      scanFrom (Key rule) (Content inputNode) 0 = Found i keyNode valueNode ∧
      entries = [keyNode; node] ∧
      if decide (0 < length (Include rule))
      then filterByRules (Include rule) valueNode zeroNode = Ok node
      else node = valueNode).
Proof.
  unfold ruleEntries.
  destruct (scanFrom (Key rule) (Content inputNode) 0)
    as [i keyNode valueNode| |i]; [|intros [= <-]; by left|done].
  intros Hentries. right.
  destruct (decide (0 < length (Include rule))).
  - apply bind_Ok in Hentries as (node & Hnested & [= <-]).
    by exists i, keyNode, valueNode, node.
  - injection Hentries as <-.
    by exists i, keyNode, valueNode, valueNode.
Qed.

Lemma forestEntries_cons_Ok rule rest inputNode entries :
  forestEntries (rule :: rest) inputNode = Ok entries →
  ∃ e e', ruleEntries rule inputNode = Ok e ∧
          forestEntries rest inputNode = Ok e' ∧ entries = e ++ e'.
Proof.
  simpl. intros (e & He & (e' & He' & [= <-])%bind_Ok)%bind_Ok. eauto.
Qed.

Lemma forestEntries_Even rules inputNode entries :
  forestEntries rules inputNode = Ok entries → Nat.Even (length entries).
Proof.
  revert entries. induction rules as [|rule rest IH]; intros entries.
  - intros [= <-]. by exists 0.
  - intros (e & e' & He & He' & ->)%forestEntries_cons_Ok.
    apply IH in He'. rewrite length_app.
    apply ruleEntries_Ok in He as [[_ ->]|(? & ? & ? & ? & _ & -> & _)]; simpl.
    + done.
    + by rewrite Nat.Even_succ_succ.
Qed.

Lemma forestEntries_keyTexts rules inputNode entries :
  forestEntries rules inputNode = Ok entries →
  keyTexts entries =
  filter (λ key, key ∈ keyTexts (Content inputNode)) (Key <$> rules).
Proof.
  revert entries. induction rules as [|rule rest IH]; intros entries.
  - by intros [= <-].
  - intros (e & e' & He & He' & ->)%forestEntries_cons_Ok.
    apply IH in He'. rewrite fmap_cons, filter_cons.
    apply ruleEntries_Ok in He as [[Hscan ->]|(i & k & v & n & Hscan & -> & _)].
    + apply scanFrom_NotFound in Hscan as [_ Habsent].
      by rewrite decide_False.
    + apply scanFrom_Found_present in Hscan as [Hkey Hpresent].
      rewrite decide_True by done.
      rewrite <- He', <- Hkey. done.
Qed.

Lemma project_Ok rules input output :
  project rules input = Ok output ↔
  Kind input = MappingNode ∧
  ∃ entries, forestEntries rules input = Ok entries ∧
    output = mkNode MappingNode (Style input) "" "" "" None entries "" "" "" 0%Z 0%Z.
Proof.
  unfold project. rewrite filterByRules_entries.
  destruct (decide (Kind input ≠ MappingNode)) as [Hne|Heq].
  - split; [done|]. by intros [? _].
  - apply dec_stable in Heq. rewrite bind_Ok. split.
    + intros (entries & He & [= <-]). eauto.
    + intros (_ & entries & He & ->). eauto.
Qed.

(** ** The entries, pair by pair *)

Lemma pairsOf_app_Even (l l' : list Node) :
  Nat.Even (length l) → pairsOf (l ++ l') = pairsOf l ++ pairsOf l'.
Proof.
  induction l as [|x|x y l IH] using list_pair_ind; simpl.
  - done.
  - intros [m Hm]. lia.
  - rewrite Nat.Even_succ_succ. intros Heven. by rewrite IH.
Qed.

Lemma ruleEntries_findPair rule inputNode :
  ruleEntries rule inputNode =
  match findPair (Key rule) (Content inputNode) with
  | None => Panic indexOutOfRangeMsg
  | Some None => Ok []
  | Some (Some (keyNode, valueNode)) =>
      if decide (0 < length (Include rule)) then
        nestedOutputNode ← project (Include rule) valueNode;
        Ok [keyNode; nestedOutputNode]
      else Ok [keyNode; valueNode]
  end.
Proof.
  unfold ruleEntries. rewrite <- scanFrom_view.
  by destruct (scanFrom (Key rule) (Content inputNode) 0).
Qed.

Lemma firstPair_app key (l l' : list (Node * Node)) :
  firstPair key (l ++ l') =
  match firstPair key l with Some kv => Some kv | None => firstPair key l' end.
Proof.
  induction l as [|[k v] l IH]; simpl; [done|].
  by destruct (decide (Value k = key)).
Qed.

Lemma firstPair_None key (pairs : list (Node * Node)) :
  firstPair key pairs = None ↔ key ∉ (Value <$> pairs.*1).
Proof.
  induction pairs as [|[k v] l IH]; simpl.
  - split; [|done]. intros _. apply not_elem_of_nil.
  - rewrite not_elem_of_cons. destruct (decide (Value k = key)); [|rewrite IH];
      intuition congruence.
Qed.

Lemma findPair_firstPair key content r :
  findPair key content = Some r → firstPair key (pairsOf content) = r.
Proof.
  induction content as [|x|x y l IH] using list_pair_ind; simpl.
  - by intros [= <-].
  - done.
  - destruct (decide (Value x = key)); [by intros [= <-]|done].
Qed.

Lemma firstPair_Some key (pairs : list (Node * Node)) keyNode valueNode :
  firstPair key pairs = Some (keyNode, valueNode) →
  Value keyNode = key ∧ (keyNode, valueNode) ∈ pairs.
Proof.
  induction pairs as [|[k v] l IH]; simpl; [done|].
  destruct (decide (Value k = key)).
  - intros [= -> ->]. split; [done|]. apply list_elem_of_here.
  - intros [? ?]%IH. split; [done|]. by apply list_elem_of_further.
Qed.

Lemma Forall2_filter {A B} (R : A → B → Prop) (P : A → Prop) (Q : B → Prop)
    `{∀ x, Decision (P x)} `{∀ y, Decision (Q y)} (l : list A) (l' : list B) :
  Forall2 R l l' → (∀ x y, R x y → P x ↔ Q y) →
  Forall2 (λ x y, P x ∧ R x y) (filter P l) (filter Q l').
Proof.
  intros Hall Hiff. induction Hall as [|x y l l' Hxy Hall IH]; [constructor|].
  rewrite !filter_cons. specialize (Hiff _ _ Hxy).
  destruct (decide (P x)), (decide (Q y)); try tauto. by constructor.
Qed.

(** The pairs a forest appends, one for each rule whose key the input
    holds, in the order of the rules: the key node is the first key node of
    the input with the rule's key, the value is the value beside it or, under
    nested rules, what the nested call built from that value. *)
Lemma forestEntries_pairs rules inputNode entries :
  forestEntries rules inputNode = Ok entries →
  Forall2 (λ rule entry,
             ∃ valueNode,
               firstPair (Key rule) (pairsOf (Content inputNode)) =
                 Some (entry.1, valueNode) ∧
               if decide (0 < length (Include rule))
               then project (Include rule) valueNode = Ok entry.2
               else entry.2 = valueNode)
    (filter (λ rule, Key rule ∈ keyTexts (Content inputNode)) rules)
    (pairsOf entries).
Proof.
  revert entries. induction rules as [|rule rest IH]; intros entries.
  - intros [= <-]. constructor.
  - intros (e & e' & He & He' & ->)%forestEntries_cons_Ok.
    specialize (IH e' He'). rewrite filter_cons.
    rewrite ruleEntries_findPair in He.
    destruct (findPair (Key rule) (Content inputNode)) as [[[k v]|]|] eqn:Hfind;
      [|injection He as <-|done].
    + pose proof (findPair_firstPair _ _ _ Hfind) as Hfirst.
      apply findPair_Found in Hfind as [Hkey Hin].
      rewrite decide_True.
      2:{ rewrite <- Hkey. unfold keyTexts, keyNodes.
          apply list_elem_of_fmap_2, list_elem_of_fmap. by exists (k, v). }
      destruct (decide (0 < length (Include rule))) as [Hlen|Hlen].
      * apply bind_Ok in He as (node & Hnode & [= <-]). simpl.
        constructor; [|done]. exists v. simpl. by rewrite decide_True.
      * injection He as <-. simpl.
        constructor; [|done]. exists v. simpl. by rewrite decide_False.
    + apply findPair_NotFound in Hfind as [_ Habsent].
      by rewrite decide_False.
Qed.

(** ** Order of the output keys *)

(** C1. When [project] returns a mapping node, the texts of its keys, in
    order, are the keys of the rules in the order the rules are declared,
    restricted to the keys that occur in the input mapping; the order of the
    keys in the input plays no part. *)
Theorem project_key_order rules input output :
  project rules input = Ok output →
  keyTexts (Content output) =
  filter (λ key, key ∈ keyTexts (Content input)) (Key <$> rules).
Proof.
  intros (_ & entries & Hentries & ->)%project_Ok. simpl.
  by apply forestEntries_keyTexts.
Qed.

Lemma project_key_order_witness :
  keyTexts (Content reorderedOutput) =
  filter (λ key, key ∈ keyTexts (Content sampleDocument)) (Key <$> reorderingRules).
Proof. apply (project_key_order reorderingRules sampleDocument). vm_compute. reflexivity. Defined.

Example project_nested_scenario : project nestedRules sampleDocument = Ok nestedOutput.
Proof. vm_compute. reflexivity. Qed.

Example project_reordering_scenario :
  keyTexts (Content sampleDocument) = ["cache"; "database"] ∧
  project reorderingRules sampleDocument = Ok reorderedOutput ∧
  keyTexts (Content reorderedOutput) = ["database"; "cache"].
Proof. vm_compute. done. Qed.

(** ** Rules that match nothing *)

Lemma ruleEntries_absent rule inputNode :
  Nat.Even (length (Content inputNode)) →
  Key rule ∉ keyTexts (Content inputNode) →
  ruleEntries rule inputNode = Ok [].
Proof.
  intros Heven Habsent. unfold ruleEntries.
  by rewrite (proj2 (scanFrom_NotFound _ _) (conj Heven Habsent)).
Qed.




(** The rule after the unmatched one yields its entry. *)
Example unmatched_rule_scenario :
  project [leafRule "nonexistent"; leafRule "cache"] sampleDocument =
  Ok (outputMapping 0 [cacheKey; cacheValue]).
Proof. vm_compute. reflexivity. Qed.

(** ** No rule matches *)

Lemma forestEntries_none rules inputNode :
  Nat.Even (length (Content inputNode)) →
  (∀ rule, rule ∈ rules → Key rule ∉ keyTexts (Content inputNode)) →
  forestEntries rules inputNode = Ok [].
Proof.
  intros Heven. induction rules as [|rule rest IH]; intros Habsent; [done|].
  simpl. rewrite ruleEntries_absent, IH; try done.
  - intros r Hr. apply Habsent. by apply list_elem_of_further.
  - apply Habsent, list_elem_of_here.
Qed.

(** C6. When no rule of the forest matches a key of the input mapping,
    [project] returns (it does not fail) a mapping node with an empty content
    sequence and the style of the input mapping; its other fields are those
    of a fresh node. *)
Theorem project_no_match rules input :
  Kind input = MappingNode →
  Nat.Even (length (Content input)) →
  (∀ rule, rule ∈ rules → Key rule ∉ keyTexts (Content input)) →
  project rules input = Ok (outputMapping (Style input) []).
Proof.
  intros Hkind Heven Habsent. apply project_Ok. split; [done|].
  exists []. split; [|done]. by apply forestEntries_none.
Qed.

Lemma project_no_match_witness :
  project [leafRule "nonexistent"] sampleDocument =
  Ok (outputMapping (Style sampleDocument) []).
Proof.
  apply (project_no_match [leafRule "nonexistent"] sampleDocument).
  - reflexivity.
  - exists 2. reflexivity.
  - intros rule ->%list_elem_of_singleton.
    apply (bool_decide_unpack _). vm_compute. exact I.
Defined.

(** ** Repeated rule keys *)

(** C9. Rules are not deduplicated: when [project] returns and a key occurs
    in the input mapping, the output holds as many entries with that key as
    the forest has rules with it.  These entries are, in the order of the
    rules with that key, one for each rule: the key node of each is the key
    node of the first pair of the input with that key (the pairs read from
    the start), and its value is the value of that very pair or, for a rule
    with nested rules, what the nested rules make of it. *)
Theorem project_repeated_keys rules input output key :
  project rules input = Ok output →
  key ∈ keyTexts (Content input) →
  length (filter (λ k, k = key) (keyTexts (Content output))) =
  length (filter (λ k, k = key) (Key <$> rules)) ∧
  ∃ keyNode valueNode,
    firstPair key (pairsOf (Content input)) = Some (keyNode, valueNode) ∧
    Forall2 (λ rule entry,
               entry.1 = keyNode ∧
               if decide (0 < length (Include rule))
               then project (Include rule) valueNode = Ok entry.2
               else entry.2 = valueNode)
      (filter (λ rule, Key rule = key) rules)
      (filter (λ entry, Value entry.1 = key) (pairsOf (Content output))).
Proof.
  intros (_ & entries & Hentries & ->)%project_Ok Hpresent. simpl. split.
  - rewrite (forestEntries_keyTexts _ _ _ Hentries).
    rewrite list_filter_filter. f_equal. apply list_filter_iff.
    intros k. split; [tauto|]. intros ->. done.
  - destruct (firstPair key (pairsOf (Content input))) as [[keyNode valueNode]|]
      eqn:Hfirst; [|by apply firstPair_None in Hfirst].
    exists keyNode, valueNode. split; [done|].
    pose proof (forestEntries_pairs _ _ _ Hentries) as Hpairs.
    apply (Forall2_filter _ (λ rule, Key rule = key) (λ entry, Value entry.1 = key))
      in Hpairs.
    + rewrite list_filter_filter in Hpairs.
      rewrite (list_filter_iff _ (λ rule, Key rule = key)) in Hpairs.
      2:{ intros r. split; [tauto|]. intros ->. done. }
      eapply Forall2_impl; [exact Hpairs|].
      intros r [k node] [Hr (v & Hv & Hnode)]. simpl in *.
      rewrite Hr, Hfirst in Hv. by injection Hv as <- <-.
    + intros r [k node] (v & [Hk _]%firstPair_Some & _). simpl in *. by rewrite Hk.
Qed.

Lemma project_repeated_keys_witness :
  length (filter (λ k, k = "a") (keyTexts (Content firstMatchOutput))) =
  length (filter (λ k, k = "a") (Key <$> firstMatchRules)) ∧
  ∃ keyNode valueNode,
    firstPair "a" (pairsOf (Content repeatedKeyTree)) = Some (keyNode, valueNode) ∧
    Forall2 (λ rule entry,
               entry.1 = keyNode ∧
               if decide (0 < length (Include rule))
               then project (Include rule) valueNode = Ok entry.2
               else entry.2 = valueNode)
      (filter (λ rule, Key rule = "a") firstMatchRules)
      (filter (λ entry, Value entry.1 = "a") (pairsOf (Content firstMatchOutput))).
Proof.
  apply (project_repeated_keys firstMatchRules repeatedKeyTree firstMatchOutput "a").
  - vm_compute. reflexivity.
  - apply (bool_decide_unpack _). vm_compute. exact I.
Defined.

Example project_repeated_scenario :
  project repeatedRules sampleDocument = Ok repeatedOutput ∧
  keyTexts (Content repeatedOutput) = ["cache"; "cache"].
Proof. vm_compute. done. Qed.

(** ** Rules without nested rules *)




(** ** Reads of the content sequence stay in bounds *)

Lemma scanFrom_Found_bounds key content j i keyNode valueNode :
  scanFrom key content j = Found i keyNode valueNode →
  (∃ m, i = j + 2 * m) ∧ i + 1 < length content ∧
  content !! i = Some keyNode ∧ content !! (i + 1) = Some valueNode ∧
  Value keyNode = key.
Proof.
  remember (length content - j) as m eqn:Hm.
  revert j Hm. induction (lt_wf m) as [m _ IH]. intros j ->.
  rewrite scanFrom_eq.
  destruct (decide (j < length content)) as [Hlt|Hge]; [|done].
  destruct (content !! j) as [k|] eqn:Hk; [|done].
  destruct (content !! (j + 1)) as [v|] eqn:Hv; [|done].
  destruct (decide (Value k = key)) as [Hkey|Hkey].
  - intros [= <- <- <-]. split; [exists 0; lia|].
    pose proof (lookup_lt_Some _ _ _ Hv). done.
  - intros Hrec.
    apply (IH (length content - (j + 2)) ltac:(lia) (j + 2) eq_refl) in Hrec.
    destruct Hrec as ([m Hm] & ?). split; [exists (S m); lia|done].
Qed.

Lemma pairsOf_elem (content : list Node) keyNode valueNode :
  (keyNode, valueNode) ∈ pairsOf content → keyNode ∈ content ∧ valueNode ∈ content.
Proof.
  induction content as [|x|x y l IH] using list_pair_ind; simpl.
  - by intros ?%elem_of_nil.
  - by intros ?%elem_of_nil.
  - rewrite !elem_of_cons. intros [[= -> ->]|[? ?]%IH]; tauto.
Qed.

Lemma wellFormed_eq n :
  wellFormed n = true ↔
  (Kind n = MappingNode → Nat.Even (length (Content n))) ∧
  ∀ child, child ∈ Content n → wellFormed child = true.
Proof.
  destruct n as [kind ? ? ? ? ? content ? ? ? ? ?]. simpl.
  rewrite andb_true_iff, forallb_forall.
  setoid_rewrite <- list_elem_of_In.
  destruct (decide (kind = MappingNode)) as [Hk|Hk].
  - rewrite Nat.even_spec. tauto.
  - tauto.
Qed.

Lemma filterByRules_outcomes rules :
  ∀ inputNode outputNode,
    isOk (filterByRules rules inputNode outputNode) = true ∨
    filterByRules rules inputNode outputNode = Fatal notAMappingMsg ∨
    filterByRules rules inputNode outputNode = Panic indexOutOfRangeMsg.
Proof.
  revert rules. apply (forest_rule_ind
      (λ rule, ∀ inputNode,
          isOk (ruleEntries rule inputNode) = true ∨
          ruleEntries rule inputNode = Fatal notAMappingMsg ∨
          ruleEntries rule inputNode = Panic indexOutOfRangeMsg)
      (λ rules, ∀ inputNode outputNode,
          isOk (filterByRules rules inputNode outputNode) = true ∨
          filterByRules rules inputNode outputNode = Fatal notAMappingMsg ∨
          filterByRules rules inputNode outputNode = Panic indexOutOfRangeMsg)).
  - intros key include IH inputNode. unfold ruleEntries. simpl.
    destruct (scanFrom key (Content inputNode) 0) as [i k v| |i]; auto.
    destruct (decide (0 < length include)); auto.
    destruct (IH v zeroNode) as [Hok|[-> | ->]]; auto.
    destruct (filterByRules include v zeroNode); auto; done.
  - intros inputNode outputNode. rewrite filterByRules_entries.
    destruct (decide (Kind inputNode ≠ MappingNode)); auto.
  - intros rule rest IHrule IHrest inputNode outputNode.
    specialize (IHrest inputNode outputNode). specialize (IHrule inputNode).
    rewrite filterByRules_entries in *.
    destruct (decide (Kind inputNode ≠ MappingNode)); auto. simpl.
    destruct IHrule as [Hok|[-> | ->]]; auto.
    destruct (ruleEntries rule inputNode); try done. simpl.
    destruct IHrest as [Hok'|[Hf|Hp]].
    + destruct (forestEntries rest inputNode); try done. auto.
    + destruct (forestEntries rest inputNode); try done. auto.
    + destruct (forestEntries rest inputNode); try done. auto.
Qed.

Lemma filterByRules_no_panic rules :
  ∀ inputNode outputNode msg,
    wellFormed inputNode = true →
    filterByRules rules inputNode outputNode ≠ Panic msg.
Proof.
  revert rules. apply (forest_rule_ind
      (λ rule, ∀ inputNode msg,
          Kind inputNode = MappingNode → wellFormed inputNode = true →
          ruleEntries rule inputNode ≠ Panic msg)
      (λ rules, ∀ inputNode outputNode msg,
          wellFormed inputNode = true →
          filterByRules rules inputNode outputNode ≠ Panic msg)).
  - intros key include IH inputNode msg Hkind [Heven Hchildren]%wellFormed_eq.
    unfold ruleEntries. simpl.
    destruct (scanFrom key (Content inputNode) 0) as [i k v| |i] eqn:Hscan; [|done|].
    + destruct (decide (0 < length include)); [|done].
      assert (wellFormed v = true) as Hv.
      { apply Hchildren.
        pose proof (scanFrom_view key (Content inputNode)) as Hview.
        rewrite Hscan in Hview. symmetry in Hview.
        apply findPair_Found in Hview as [_ Hin].
        by apply pairsOf_elem in Hin as [_ ?]. }
      specialize (IH v zeroNode msg Hv).
      destruct (filterByRules include v zeroNode); simpl; congruence.
    + apply scanFrom_OutOfRange in Hscan as [[m Hodd] _].
      destruct (Heven Hkind) as [m' Heven']. lia.
  - intros inputNode outputNode msg _. rewrite filterByRules_entries.
    by destruct (decide (Kind inputNode ≠ MappingNode)).
  - intros rule rest IHrule IHrest inputNode outputNode msg Hwf.
    specialize (IHrest inputNode outputNode msg Hwf).
    specialize (IHrule inputNode msg).
    rewrite filterByRules_entries in *.
    destruct (decide (Kind inputNode ≠ MappingNode)) as [|Hkind]; [done|].
    apply dec_stable in Hkind. specialize (IHrule Hkind Hwf). simpl.
    destruct (ruleEntries rule inputNode); simpl; try congruence.
    destruct (forestEntries rest inputNode); simpl in *; congruence.
Qed.

Lemma scanReads_eq key content i :
  scanReads key content i =
  if decide (i < length content) then
    match content !! i with
    | None => [i]
    | Some keyNode =>
        match content !! (i + 1) with
        | None => [i; i + 1]
        | Some valueNode =>
            i :: (i + 1) ::
              (if decide (Value keyNode = key) then []
               else scanReads key content (i + 2))
        end
    end
  else [].
Proof.
  rewrite scanReads_equation_1.
  destruct (decide (i < length content)); simpl; done.
Qed.

(** An out-of-range result is a read at or beyond the length. *)
Lemma scanFrom_OutOfRange_read key content i j :
  scanFrom key content i = OutOfRange j →
  j ∈ scanReads key content i ∧ length content ≤ j.
Proof.
  remember (length content - i) as m eqn:Hm.
  revert i Hm. induction (lt_wf m) as [m _ IH]. intros i ->.
  rewrite scanFrom_eq, scanReads_eq.
  destruct (decide (i < length content)) as [Hlt|Hge]; [|done].
  destruct (content !! i) as [k|] eqn:Hk.
  - destruct (content !! (i + 1)) as [v|] eqn:Hv.
    + destruct (decide (Value k = key)); [done|]. intros Hrec.
      apply (IH (length content - (i + 2)) ltac:(lia) (i + 2) eq_refl) in Hrec
        as [Hin Hle].
      split; [|done]. by do 2 apply list_elem_of_further.
    + intros [= <-]. apply lookup_ge_None in Hv. split; [|done].
      apply list_elem_of_further, list_elem_of_here.
  - intros [= <-]. apply lookup_ge_None in Hk. split; [|done].
    apply list_elem_of_here.
Qed.

(** On whole pairs the reads are the indices [0, 1, ..., 2k-1] of the pairs
    up to the match, or of all pairs. *)
Lemma scanReads_Even key content i :
  Nat.Even (length content) → Nat.Even i → i ≤ length content →
  ∃ k, scanReads key content i = seq i (2 * k) ∧ i + 2 * k ≤ length content.
Proof.
  intros [n Hn]. remember (length content - i) as m eqn:Hm.
  revert i Hm. induction (lt_wf m) as [m _ IH]. intros i -> [a Ha] Hi.
  rewrite scanReads_eq.
  destruct (decide (i < length content)) as [Hlt|Hge];
    [|exists 0; split; [done|lia]].
  destruct (content !! i) as [k|] eqn:Hk;
    [|apply lookup_ge_None in Hk; lia].
  destruct (content !! (i + 1)) as [v|] eqn:Hv;
    [|apply lookup_ge_None in Hv; lia].
  destruct (decide (Value k = key)).
  - exists 1. simpl. replace (i + 1) with (S i) by lia. split; [done|lia].
  - destruct (IH (length content - (i + 2)) ltac:(lia) (i + 2) eq_refl)
      as (k' & -> & Hle); [exists (S a); lia|lia|].
    exists (S k'). split; [|lia].
    replace (2 * S k') with (S (S (2 * k'))) by lia. simpl.
    by replace (i + 1) with (S i) by lia; replace (i + 2) with (S (S i)) by lia.
Qed.

(** C10. For an input mapping whose content sequence has even length, the
    scan of any rule key reads [Content[i]] and [Content[i+1]] for even [i]
    only, all of them below the length: the indices read are [0 .. 2k-1]
    for some [2k] up to the length, no read is out of range, and a match is
    the pair at such an index.  When moreover the mappings below the input
    hold whole pairs, the whole call ends without a run-time panic. *)
Theorem scan_reads_in_bounds inputNode :
  Kind inputNode = MappingNode →
  Nat.Even (length (Content inputNode)) →
  (∀ key, ∃ k, scanReads key (Content inputNode) 0 = seq 0 (2 * k) ∧
               2 * k ≤ length (Content inputNode)) ∧
  (∀ key i, scanFrom key (Content inputNode) 0 ≠ OutOfRange i) ∧
  (∀ key i keyNode valueNode,
      scanFrom key (Content inputNode) 0 = Found i keyNode valueNode →
      Nat.Even i ∧ i + 1 < length (Content inputNode) ∧
      Content inputNode !! i = Some keyNode ∧
      Content inputNode !! (i + 1) = Some valueNode) ∧
  ((∀ child, child ∈ Content inputNode → wellFormed child = true) →
   ∀ rules outputNode msg, filterByRules rules inputNode outputNode ≠ Panic msg).
Proof.
  intros Hkind Heven. split_and!.
  - intros key. apply scanReads_Even; [done|by exists 0|lia].
  - intros key i [[m Hodd] _]%scanFrom_OutOfRange.
    destruct Heven as [m' Heven]. lia.
  - intros key i keyNode valueNode ([m Hm] & ? & ? & ? & _)%scanFrom_Found_bounds.
    split; [exists m; lia|done].
  - intros Hchildren rules outputNode msg.
    apply filterByRules_no_panic, wellFormed_eq. done.
Qed.

Lemma scan_reads_in_bounds_witness :
  (∀ key, ∃ k, scanReads key (Content sampleDocument) 0 = seq 0 (2 * k) ∧
               2 * k ≤ length (Content sampleDocument)) ∧
  (∀ key i, scanFrom key (Content sampleDocument) 0 ≠ OutOfRange i) ∧
  (∀ key i keyNode valueNode,
      scanFrom key (Content sampleDocument) 0 = Found i keyNode valueNode →
      Nat.Even i ∧ i + 1 < length (Content sampleDocument) ∧
      Content sampleDocument !! i = Some keyNode ∧
      Content sampleDocument !! (i + 1) = Some valueNode) ∧
  ((∀ child, child ∈ Content sampleDocument → wellFormed child = true) →
   ∀ rules outputNode msg, filterByRules rules sampleDocument outputNode ≠ Panic msg).
Proof.
  apply (scan_reads_in_bounds sampleDocument).
  - reflexivity.
  - exists 2. reflexivity.
Defined.

Example scan_reads_scenario :
  scanReads "database" (Content sampleDocument) 0 = [0; 1; 2; 3] ∧
  scanReads "cache" (Content sampleDocument) 0 = [0; 1] ∧
  scanReads "cache" [databaseKey; databaseValue; cacheKey] 0 = [0; 1; 2; 3] ∧
  scanFrom "cache" [databaseKey; databaseValue; cacheKey] 0 = OutOfRange 3.
Proof. vm_compute. done. Qed.

(** ** The document wrapper *)

Lemma trim_single_document yaml input rules root node :
  yamlUnmarshal yaml input = inl root → Content root = [node] →
  trim yaml input rules =
  outputNode ← project rules node;
  match yamlEncode yaml 2 outputNode with
  | inr err => Error (marshalErrorPrefix +:+ err)
  | inl output => Ok output
  end.
Proof. unfold trim. intros -> ->. done. Qed.

Lemma trim_Ok yaml input rules output :
  trim yaml input rules = Ok output ↔
  ∃ root node projected,
    yamlUnmarshal yaml input = inl root ∧ Content root = [node] ∧
    project rules node = Ok projected ∧
    yamlEncode yaml 2 projected = inl output.
Proof.
  split.
  - intros Htrim. pose proof Htrim as Hrun. unfold trim in Hrun.
    destruct (yamlUnmarshal yaml input) as [root|err] eqn:Hroot; [|done].
    destruct (Content root) as [|node [|node' rest]] eqn:Hcontent; [done| |].
    + rewrite (trim_single_document _ _ _ _ _ Hroot Hcontent) in Htrim.
      apply bind_Ok in Htrim as (projected & Hproject & Hencode).
      exists root, node, projected. split_and!; try done.
      by destruct (yamlEncode yaml 2 projected); simplify_eq.
    + rewrite decide_False, decide_True in Hrun by (simpl; lia). done.
  - intros (root & node & projected & Hroot & Hcontent & Hproject & Hencode).
    rewrite (trim_single_document _ _ _ _ _ Hroot Hcontent), Hproject. simpl.
    by rewrite Hencode.
Qed.

(** The cases of [trim] on what the parser filled [root] with: the error
    "no content in the input YAML" when the root has no content,
    [logrus.Fatalf] when the root holds more than one node, and the call of
    [filterByRules] on the node, followed by the encoder, when it holds
    exactly one. *)
Lemma trim_document_shape yaml input rules :
  match yamlUnmarshal yaml input with
  | inr err => trim yaml input rules = Error (unmarshalErrorPrefix +:+ err)
  | inl root =>
      match Content root with
      | [] => trim yaml input rules = Error noContentMsg
      | [node] =>
          trim yaml input rules =
          outputNode ← project rules node;
          match yamlEncode yaml 2 outputNode with
          | inr err => Error (marshalErrorPrefix +:+ err)
          | inl output => Ok output
          end
      | _ :: _ :: _ => trim yaml input rules = Fatal multipleDocumentsMsg
      end
  end.
Proof.
  unfold trim. destruct (yamlUnmarshal yaml input) as [root|err]; [|done].
  destruct (Content root) as [|node [|node' rest]]; [done|done|].
  rewrite decide_False by done.
  rewrite decide_True by (simpl; lia). done.
Qed.

(** [yaml.Unmarshal] decodes one document, the first of the text, and the
    document node it fills [root] with holds that document's node and no
    other.  With a parser that does so, the check [len(root.Content) > 1]
    never fires: [trim] does not end in the fatal exit for multiple
    documents, whatever the input. *)
Lemma trim_multiple_documents_unreachable yaml input rules :
  (∀ root, yamlUnmarshal yaml input = inl root → length (Content root) ≤ 1) →
  trim yaml input rules ≠ Fatal multipleDocumentsMsg.
Proof.
  intros Hone. pose proof (trim_document_shape yaml input rules) as Hshape.
  destruct (yamlUnmarshal yaml input) as [root|err] eqn:Hroot;
    [|by rewrite Hshape].
  specialize (Hone root eq_refl).
  destruct (Content root) as [|node [|node' rest]];
    [by rewrite Hshape| |simpl in Hone; lia].
  rewrite Hshape. unfold project.
  destruct (filterByRules_outcomes rules node zeroNode) as [Hok|[->| ->]];
    [|done|done].
  destruct (filterByRules rules node zeroNode) as [out|msg|msg|msg]; try done.
  simpl. by destruct (yamlEncode yaml 2 out).
Qed.

(** C5.  On a text with two documents [trim] does not fail: the parser
    hands it the first document only, and what it returns is the projection
    of that document, the same bytes as for the text of the first document
    alone. *)
Theorem trim_two_documents :
  trim miniYaml (String.list_byte_of_string twoDocumentsText) [leafRule "a"] =
    Ok (String.list_byte_of_string firstDocumentText) ∧
  trim miniYaml (String.list_byte_of_string firstDocumentText) [leafRule "a"] =
    Ok (String.list_byte_of_string firstDocumentText).
Proof. vm_compute. done. Qed.

(** ** A node that is not a mapping *)

Lemma forestEntries_elem_Ok rules rule inputNode entries :
  rule ∈ rules → forestEntries rules inputNode = Ok entries →
  ∃ e, ruleEntries rule inputNode = Ok e.
Proof.
  revert entries. induction rules as [|r rest IH]; intros entries.
  - by intros ?%elem_of_nil.
  - intros Hin (e & e' & He & He' & ->)%forestEntries_cons_Ok.
    apply elem_of_cons in Hin as [->|Hin]; eauto.
Qed.

Lemma callsInto_not_Ok rules input rules' input' :
  callsInto rules input rules' input' → Kind input' ≠ MappingNode →
  ∀ outputNode output, filterByRules rules input outputNode ≠ Ok output.
Proof.
  induction 1 as [rules input|rules input rule i k v rules' input'
                  Hin Hkind Hscan Hnested _ IH]; intros Hnot outputNode output.
  - rewrite filterByRules_entries, decide_True by done. done.
  - rewrite filterByRules_entries, decide_False by (by intros []).
    intros (entries & Hentries & _)%bind_Ok.
    destruct (forestEntries_elem_Ok _ _ _ _ Hin Hentries) as [e He].
    unfold ruleEntries in He. rewrite Hscan, decide_True in He by done.
    apply bind_Ok in He as (node & Hnode & _).
    by apply (IH Hnot zeroNode node).
Qed.

(** C2, as the code has it.  When a call of [filterByRules] leads to a call
    whose input node is not a mapping (the call itself, or a call on the
    matched value of a rule with nested rules, at any depth), the whole call
    returns no node, neither a partial nor an empty one; on a well-formed
    tree it ends in [logrus.Fatalf] with the fixed message
    "Input node is not a mapping node", which ends the process, and so does
    [trim] on a document with that tree. *)
Theorem not_a_mapping_is_fatal rules input rules' input' :
  callsInto rules input rules' input' →
  Kind input' ≠ MappingNode →
  (∀ outputNode output, filterByRules rules input outputNode ≠ Ok output) ∧
  (wellFormed input = true →
   (∀ outputNode, filterByRules rules input outputNode = Fatal notAMappingMsg) ∧
   (∀ yaml bytes root,
       yamlUnmarshal yaml bytes = inl root → Content root = [input] →
       trim yaml bytes rules = Fatal notAMappingMsg)).
Proof.
  intros Hcalls Hnot. split; [by eapply callsInto_not_Ok|].
  intros Hwf.
  assert (∀ outputNode, filterByRules rules input outputNode = Fatal notAMappingMsg)
    as Hfatal.
  { intros outputNode.
    pose proof (callsInto_not_Ok _ _ _ _ Hcalls Hnot outputNode) as HnotOk.
    pose proof (filterByRules_no_panic rules input outputNode indexOutOfRangeMsg Hwf).
    destruct (filterByRules_outcomes rules input outputNode) as [Hok|[?|?]]; try done.
    destruct (filterByRules rules input outputNode) as [output| | |]; try done.
    by destruct (HnotOk output). }
  split; [done|]. intros yaml bytes root Hroot Hcontent.
  rewrite (trim_single_document _ _ _ _ _ Hroot Hcontent). unfold project.
  by rewrite Hfatal.
Qed.

Lemma not_a_mapping_is_fatal_witness :
  (∀ outputNode output, filterByRules mismatchRules scalarDocument outputNode ≠ Ok output) ∧
  (wellFormed scalarDocument = true →
   (∀ outputNode,
       filterByRules mismatchRules scalarDocument outputNode = Fatal notAMappingMsg) ∧
   (∀ yaml bytes root,
       yamlUnmarshal yaml bytes = inl root → Content root = [scalarDocument] →
       trim yaml bytes mismatchRules = Fatal notAMappingMsg)).
Proof.
  apply (not_a_mapping_is_fatal mismatchRules scalarDocument [leafRule "host"] localhostValue).
  - apply (callsInto_nested _ _ (mkIncludeConfigItem "database" [leafRule "host"])
             0 (scalarNode "!!str" "database" 1 1) localhostValue).
    + apply list_elem_of_here.
    + reflexivity.
    + vm_compute. reflexivity.
    + simpl. lia.
    + apply callsInto_here.
  - discriminate.
Defined.

Example project_mismatch_scenario :
  project mismatchRules scalarDocument = Fatal notAMappingMsg.
Proof. vm_compute. reflexivity. Qed.

(** C2, as stated, fails: the failure carries the fixed message only, so
    nothing computed from it gives the position of the offending node. *)
Lemma not_a_mapping_error_has_no_position :
  ¬ ∃ position : outcome Node → Z * Z,
      ∀ rules input, Kind input ≠ MappingNode →
        position (project rules input) = (Line input, Column input).
Proof.
  intros [position Hposition].
  pose proof (Hposition [] (scalarNode "!!str" "localhost" 1 11) ltac:(discriminate)) as H1.
  pose proof (Hposition [] (scalarNode "!!str" "localhost" 2 5) ltac:(discriminate)) as H2.
  vm_compute in H1, H2. congruence.
Qed.

(** ** The call on the store writes to the output node only *)

Lemma load_Ok h p c : load h p = Ok c ↔ h !! p = Some c.
Proof. unfold load. destruct (h !! p); split; congruence. Qed.

Lemma modify_Ok f p h h' :
  modify f p h = Ok h' ↔ ∃ c, h !! p = Some c ∧ h' = <[p := f c]> h.
Proof.
  unfold modify. rewrite bind_Ok. setoid_rewrite load_Ok. split.
  - intros (c & Hc & [= <-]). eauto.
  - intros (c & Hc & ->). eauto.
Qed.

Lemma preserves_refl out h : preserves out h h.
Proof. by split. Qed.

Lemma preserves_trans out h1 h2 h3 :
  preserves out h1 h2 → preserves out h2 h3 → preserves out h1 h3.
Proof.
  intros [Hdom1 Hsame1] [Hdom2 Hsame2]. split; [set_solver|].
  intros p Hne Hin. rewrite Hsame2, Hsame1; auto.
Qed.

Lemma modify_preserves f out h h' :
  modify f out h = Ok h' → preserves out h h'.
Proof.
  intros (c & Hc & ->)%modify_Ok. split.
  - rewrite dom_insert_L. set_solver.
  - intros p Hne _. by rewrite lookup_insert_ne.
Qed.

Lemma preserves_alloc out nested c h h' :
  nested ∉ dom h → preserves nested (<[nested := c]> h) h' → preserves out h h'.
Proof.
  intros Hfresh [Hdom Hsame]. split.
  - rewrite dom_insert_L in Hdom. set_solver.
  - intros p _ Hin.
    assert (p ≠ nested) as Hne by (intros ->; done).
    rewrite Hsame; [by rewrite lookup_insert_ne| done |].
    rewrite dom_insert_L. set_solver.
Qed.

Lemma rangeBodyAt_eq key include inputNode outputNode h :
  rangeBodyAt (mkIncludeConfigItem key include) inputNode outputNode h =
  input ← load h inputNode;
  match scanFromAt h key (cellContent input) 0 with
  | OutOfRangeAt _ => Panic indexOutOfRangeMsg
  | NilKeyAt _ => Panic nilDereferenceMsg
  | NotFoundAt => Ok h
  | FoundAt _ keyNode valueNode =>
      h ← appendContentAt outputNode keyNode h;
      if decide (0 < length include) then
        let nestedOutputNode := fresh (dom h) in
        let h := <[nestedOutputNode := zeroCell]> h in
        h ← filterByRulesAt include valueNode nestedOutputNode h;
        appendContentAt outputNode nestedOutputNode h
      else
        appendContentAt outputNode valueNode h
  end.
Proof. done. Qed.

Lemma filterByRulesAt_eq rules inputNode outputNode h :
  filterByRulesAt rules inputNode outputNode h =
  input ← load h inputNode;
  if decide (cellKind input ≠ MappingNode) then Fatal notAMappingMsg
  else
    h ← modify (λ c, cellSetKind c MappingNode) outputNode h;
    input ← load h inputNode;
    h ← modify (λ c, cellSetStyle c (cellStyle input)) outputNode h;
    rangeRulesAt (λ rule h, rangeBodyAt rule inputNode outputNode h) rules h.
Proof. done. Qed.

Lemma filterByRulesAt_preserves_loop rules :
  (∀ inputNode outputNode h h',
      rangeRulesAt (λ rule h, rangeBodyAt rule inputNode outputNode h) rules h = Ok h' →
      preserves outputNode h h') →
  ∀ inputNode outputNode h h',
    filterByRulesAt rules inputNode outputNode h = Ok h' → preserves outputNode h h'.
Proof.
  intros Hloop inputNode outputNode h h'. rewrite filterByRulesAt_eq.
  intros (input & _ & Hrun)%bind_Ok.
  destruct (decide (cellKind input ≠ MappingNode)); [done|].
  apply bind_Ok in Hrun as (h1 & Hh1%modify_preserves & Hrun).
  apply bind_Ok in Hrun as (input' & _ & Hrun).
  apply bind_Ok in Hrun as (h2 & Hh2%modify_preserves & Hrun%Hloop).
  eauto using preserves_trans.
Qed.

Lemma rangeRulesAt_preserves rules :
  ∀ inputNode outputNode h h',
    rangeRulesAt (λ rule h, rangeBodyAt rule inputNode outputNode h) rules h = Ok h' →
    preserves outputNode h h'.
Proof.
  revert rules. apply (forest_rule_ind
      (λ rule, ∀ inputNode outputNode h h',
          rangeBodyAt rule inputNode outputNode h = Ok h' → preserves outputNode h h')
      (λ rules, ∀ inputNode outputNode h h',
          rangeRulesAt (λ rule h, rangeBodyAt rule inputNode outputNode h) rules h = Ok h' →
          preserves outputNode h h')).
  - intros key include IH inputNode outputNode h h'. rewrite rangeBodyAt_eq.
    intros (input & _ & Hrun)%bind_Ok.
    destruct (scanFromAt h key (cellContent input) 0) as [i k v| | |]; try done.
    + apply bind_Ok in Hrun as (h1 & Hh1%modify_preserves & Hrun).
      destruct (decide (0 < length include)).
      * apply bind_Ok in Hrun as (h2 & Hnested & Hh3%modify_preserves).
        apply (filterByRulesAt_preserves_loop _ IH) in Hnested.
        apply (preserves_alloc outputNode) in Hnested; [|apply is_fresh].
        eauto using preserves_trans.
      * apply modify_preserves in Hrun. eauto using preserves_trans.
    + injection Hrun as <-. apply preserves_refl.
  - intros inputNode outputNode h h' [= <-]. apply preserves_refl.
  - intros rule rest IHrule IHrest inputNode outputNode h h'. simpl.
    intros (h1 & Hh1%IHrule & Hrest%IHrest)%bind_Ok.
    eauto using preserves_trans.
Qed.

Lemma filterByRulesAt_preserves rules inputNode outputNode h h' :
  filterByRulesAt rules inputNode outputNode h = Ok h' → preserves outputNode h h'.
Proof.
  apply filterByRulesAt_preserves_loop. apply rangeRulesAt_preserves.
Qed.

Lemma scanFromAt_eq h key content i :
  scanFromAt h key content i =
  if decide (i < length content) then
    match content !! i, content !! (i + 1) with
    | Some keyNode, Some valueNode =>
        match h !! keyNode with
        | None => NilKeyAt i
        | Some keyCell =>
            if decide (cellValue keyCell = key) then FoundAt i keyNode valueNode
            else scanFromAt h key content (i + 2)
        end
    | Some _, None => OutOfRangeAt (i + 1)
    | None, _ => OutOfRangeAt i
    end
  else NotFoundAt.
Proof.
  rewrite scanFromAt_equation_1.
  destruct (decide (i < length content)); simpl; done.
Qed.

Lemma scanFromAt_Found_elem h key content j i keyNode valueNode :
  scanFromAt h key content j = FoundAt i keyNode valueNode →
  keyNode ∈ content ∧ valueNode ∈ content.
Proof.
  remember (length content - j) as m eqn:Hm.
  revert j Hm. induction (lt_wf m) as [m _ IH]. intros j ->.
  rewrite scanFromAt_eq.
  destruct (decide (j < length content)) as [Hlt|Hge]; [|done].
  destruct (content !! j) as [k|] eqn:Hk; [|done].
  destruct (content !! (j + 1)) as [v|] eqn:Hv; [|done].
  destruct (h !! k) as [keyCell|]; [|done].
  destruct (decide (cellValue keyCell = key)).
  - intros [= <- <- <-]. split; by eapply list_elem_of_lookup_2.
  - apply (IH (length content - (j + 2)) ltac:(lia) (j + 2) eq_refl).
Qed.

Lemma cellSetContent_app_nil c : cellSetContent c (cellContent c ++ []) = c.
Proof. destruct c. unfold cellSetContent. simpl. by rewrite app_nil_r. Qed.

Lemma appendsTo_refl inputNode outputNode h : appendsTo inputNode outputNode h h.
Proof.
  intros input out _ Hout. exists []. rewrite cellSetContent_app_nil.
  split; [done|]. by intros q ?%elem_of_nil.
Qed.

Lemma appendsTo_trans inputNode outputNode h1 h2 h3 :
  inputNode ≠ outputNode →
  preserves outputNode h1 h2 →
  appendsTo inputNode outputNode h1 h2 →
  appendsTo inputNode outputNode h2 h3 →
  appendsTo inputNode outputNode h1 h3.
Proof.
  intros Hne [Hdom Hsame] Happ1 Happ2 input out Hin Hout.
  destruct (Happ1 input out Hin Hout) as (new1 & Hout2 & Hnew1).
  assert (h2 !! inputNode = Some input) as Hin2.
  { rewrite Hsame; [done..|]. apply elem_of_dom. eauto. }
  destruct (Happ2 input _ Hin2 Hout2) as (new2 & Hout3 & Hnew2).
  exists (new1 ++ new2). split.
  - rewrite Hout3. unfold cellSetContent. simpl. by rewrite app_assoc.
  - intros q [Hq|Hq]%elem_of_app; [by apply Hnew1|].
    destruct (Hnew2 q Hq) as [?|Hfresh]; [by left|]. right. set_solver.
Qed.

Lemma appendContentAt_appendsTo inputNode outputNode child h h' :
  (∀ input, h !! inputNode = Some input → child ∈ cellContent input ∨ child ∉ dom h) →
  appendContentAt outputNode child h = Ok h' →
  appendsTo inputNode outputNode h h'.
Proof.
  intros Hchild (c & Hc & ->)%modify_Ok input out Hin Hout.
  exists [child]. rewrite lookup_insert_eq. simplify_eq. split; [done|].
  intros q ->%list_elem_of_singleton. by apply Hchild.
Qed.

Lemma rangeBodyAt_appendsTo rule inputNode outputNode h h' :
  inputNode ≠ outputNode →
  rangeBodyAt rule inputNode outputNode h = Ok h' →
  appendsTo inputNode outputNode h h'.
Proof.
  intros Hne. destruct rule as [key include]. rewrite rangeBodyAt_eq.
  intros (input & Hinput%load_Ok & Hrun)%bind_Ok.
  destruct (scanFromAt h key (cellContent input) 0) as [i k v| | |] eqn:Hscan;
    try done; [|injection Hrun as <-; apply appendsTo_refl].
  apply scanFromAt_Found_elem in Hscan as [Hk Hv].
  apply bind_Ok in Hrun as (h1 & Hh1 & Hrun).
  pose proof (modify_preserves _ _ _ _ Hh1) as Hpres1.
  assert (h1 !! inputNode = Some input) as Hinput1.
  { destruct Hpres1 as [_ Hsame]. rewrite Hsame; [done..|].
    apply elem_of_dom. eauto. }
  apply (appendsTo_trans _ _ h h1); [done|done| |].
  { eapply appendContentAt_appendsTo; [|done]. intros ? ?. simplify_eq. by left. }
  destruct (decide (0 < length include)).
  - apply bind_Ok in Hrun as (h2 & Hnested%filterByRulesAt_preserves & Hh3).
    pose proof (is_fresh (dom h1)) as Hfresh.
    set (nested := fresh (dom h1)) in *.
    apply (preserves_alloc outputNode) in Hnested as Hpres2; [|done].
    intros input' out Hin Hout.
    assert (outputNode ≠ nested) as Hne'.
    { intros ->. apply Hfresh, elem_of_dom. eauto. }
    apply modify_Ok in Hh3 as (c & Hc & ->).
    destruct Hnested as [_ Hsame].
    rewrite Hsame, lookup_insert_ne in Hc; [|done|done|].
    2:{ rewrite dom_insert_L. apply elem_of_union_r, elem_of_dom. eauto. }
    simplify_eq. exists [nested]. rewrite lookup_insert_eq. split; [done|].
    intros q ->%list_elem_of_singleton. by right.
  - eapply appendContentAt_appendsTo; [|done]. intros ? ?. simplify_eq. by left.
Qed.

Lemma rangeRulesAt_appendsTo rules inputNode outputNode h h' :
  inputNode ≠ outputNode →
  rangeRulesAt (λ rule h, rangeBodyAt rule inputNode outputNode h) rules h = Ok h' →
  appendsTo inputNode outputNode h h'.
Proof.
  intros Hne. revert h. induction rules as [|rule rest IH]; intros h; simpl.
  - intros [= <-]. apply appendsTo_refl.
  - intros (h1 & Hh1 & Hrest)%bind_Ok.
    apply (appendsTo_trans _ _ h h1);
      [done| |by eapply rangeBodyAt_appendsTo|by apply IH].
    apply (rangeRulesAt_preserves [rule] inputNode). simpl. by rewrite Hh1.
Qed.

(** C8. A call as the repository makes it (the output declared with [var])
    leaves every node the store held before the call with all its fields,
    content included; the output is a node the store did not hold, a mapping
    with the style of the input, and each pointer in its content is one of
    the input's own key or value pointers, shared and not copied, or a node
    allocated during the call. *)
Theorem projectAt_frame rules inputNode h outputNode h' :
  projectAt rules inputNode h = Ok (outputNode, h') →
  (outputNode ∉ dom h) ∧
  (∀ p c, h !! p = Some c → h' !! p = Some c) ∧
  ∃ input content,
    h !! inputNode = Some input ∧
    h' !! outputNode = Some (outputCell (cellStyle input) content) ∧
    ∀ q, q ∈ content → q ∈ cellContent input ∨ q ∉ dom h.
Proof.
  unfold projectAt. intros (h1 & Hrun & [= <- <-])%bind_Ok.
  pose proof (is_fresh (dom h)) as Hfresh.
  set (out := fresh (dom h)) in *. split_and!; [done| |].
  - intros p c Hp.
    assert (p ≠ out) as Hne by (intros ->; apply Hfresh, elem_of_dom; eauto).
    apply filterByRulesAt_preserves in Hrun as [_ Hsame].
    rewrite Hsame, lookup_insert_ne; [done..|].
    rewrite dom_insert_L. apply elem_of_union_r, elem_of_dom. eauto.
  - rewrite filterByRulesAt_eq in Hrun.
    apply bind_Ok in Hrun as (input & Hinput%load_Ok & Hrun).
    destruct (decide (cellKind input ≠ MappingNode)) as [|Hkind]; [done|].
    assert (inputNode ≠ out) as Hne.
    { intros ->. rewrite lookup_insert_eq in Hinput. injection Hinput as <-.
      by apply Hkind. }
    rewrite lookup_insert_ne in Hinput by done.
    apply bind_Ok in Hrun as (h2 & (c & Hc & ->)%modify_Ok & Hrun).
    rewrite lookup_insert_eq in Hc. injection Hc as <-.
    apply bind_Ok in Hrun as (input' & Hinput'%load_Ok & Hrun).
    rewrite !lookup_insert_ne in Hinput' by done. simplify_eq.
    apply bind_Ok in Hrun as (h3 & (c & Hc & ->)%modify_Ok & Hrun).
    rewrite lookup_insert_eq in Hc. injection Hc as <-.
    apply rangeRulesAt_appendsTo in Hrun; [|done].
    destruct (Hrun input (cellSetStyle (cellSetKind zeroCell MappingNode) (cellStyle input)))
      as (new & Hout & Hnew).
    { by rewrite !lookup_insert_ne. }
    { by rewrite lookup_insert_eq. }
    exists input, new. split_and!; [done|done|].
    intros q Hq. destruct (Hnew q Hq) as [?|Hq']; [by left|right].
    rewrite !dom_insert_L in Hq'. set_solver.
Qed.

Lemma projectAt_frame_witness :
  (8%positive ∉ dom sampleStore) ∧
  (∀ p c, sampleStore !! p = Some c → sampleStoreAfter !! p = Some c) ∧
  ∃ input content,
    sampleStore !! 1%positive = Some input ∧
    sampleStoreAfter !! 8%positive = Some (outputCell (cellStyle input) content) ∧
    ∀ q, q ∈ content → q ∈ cellContent input ∨ q ∉ dom sampleStore.
Proof.
  apply (projectAt_frame sampleStoreRules 1%positive sampleStore 8%positive sampleStoreAfter).
  vm_compute. reflexivity.
Defined.

Example projectAt_shares_pointers :
  projectAt sampleStoreRules 1%positive sampleStore = Ok (8%positive, sampleStoreAfter) ∧
  sampleStoreAfter !! 8%positive = Some (outputCell 0 [2; 9]%positive) ∧
  sampleStoreAfter !! 9%positive = Some (outputCell 0 [4; 5]%positive) ∧
  sampleStore !! 3%positive = Some (mappingCell [4; 5; 6; 7]%positive 2 3).
Proof. vm_compute. done. Qed.

(** ** Projecting twice *)

Example trim_one_field_scenario :
  trim miniYaml (String.list_byte_of_string twoFieldsText) oneFieldRules =
  Ok (String.list_byte_of_string oneFieldText) ∧
  trim miniYaml (String.list_byte_of_string oneFieldText) oneFieldRules =
  Ok (String.list_byte_of_string oneFieldText).
Proof. vm_compute. done. Qed.

Example trim_no_match_scenario :
  trim miniYaml (String.list_byte_of_string twoFieldsText) [leafRule "nonexistent"] =
  Ok (String.list_byte_of_string ("{}" +:+ newline)).
Proof. vm_compute. reflexivity. Qed.

(** C3, as stated, fails, in two ways.  With two rules for the same key the
    second pass finds, for both rules, the entry the first rule produced.
    And with rules that repeat no key, a rule that copies an alias without
    the node that carries its anchor produces a text the parser rejects. *)
Lemma trim_not_idempotent :
  (trim miniYaml (String.list_byte_of_string twoFieldsText) repeatedKeyRules =
     Ok (String.list_byte_of_string repeatedKeyText) ∧
   trim miniYaml (String.list_byte_of_string repeatedKeyText) repeatedKeyRules =
     Ok (String.list_byte_of_string emptiedKeyText) ∧
   String.list_byte_of_string repeatedKeyText ≠
     String.list_byte_of_string emptiedKeyText) ∧
  (trim miniYaml (String.list_byte_of_string anchoredText) [leafRule "a"] =
     Ok (String.list_byte_of_string danglingAliasText) ∧
   trim miniYaml (String.list_byte_of_string danglingAliasText) [leafRule "a"] =
     Error (unmarshalErrorPrefix +:+ unknownAnchorMsg)).
Proof. vm_compute. split_and!; [done|done|discriminate|done|done]. Qed.

Lemma findPair_app_skip key (l l' : list Node) :
  Nat.Even (length l) → key ∉ keyTexts l →
  findPair key (l ++ l') = findPair key l'.
Proof.
  unfold keyTexts, keyNodes.
  induction l as [|x|x y l IH] using list_pair_ind; simpl.
  - done.
  - intros [m Hm]. lia.
  - rewrite Nat.Even_succ_succ, not_elem_of_cons. intros Heven [Hne Hnot].
    rewrite decide_False by done. by apply IH.
Qed.

Lemma distinctKeysRule_eq key include :
  distinctKeysRule (mkIncludeConfigItem key include) ↔
  NoDup (Key <$> include) ∧ Forall distinctKeysRule include.
Proof.
  simpl. apply and_iff_compat_l.
  induction include as [|rule rest IH]; [by rewrite Forall_nil|].
  rewrite Forall_cons, IH. done.
Qed.

(** The entries a forest produced are found again, rule by rule, in the node
    that holds them. *)
Lemma forestEntries_again rules :
  Forall (λ rule, 0 < length (Include rule) →
                  ∀ input output, project (Include rule) input = Ok output →
                                  project (Include rule) output = Ok output) rules →
  NoDup (Key <$> rules) →
  ∀ inputNode entries,
    forestEntries rules inputNode = Ok entries →
    ∀ before outputNode,
      Nat.Even (length before) →
      (∀ rule, rule ∈ rules → Key rule ∉ keyTexts before) →
      Content outputNode = before ++ entries →
      forestEntries rules outputNode = Ok entries.
Proof.
  induction rules as [|rule rest IH]; intros Hnested Hdistinct inputNode entries;
    [done|].
  apply Forall_cons in Hnested as [Hrule Hnested].
  rewrite fmap_cons in Hdistinct. apply NoDup_cons in Hdistinct as [Hfirst Hdistinct].
  intros (e & e' & He & He' & ->)%forestEntries_cons_Ok before outputNode
    Heven Hbefore Hcontent.
  pose proof (forestEntries_keyTexts _ _ _ He') as Hkeys'.
  pose proof (forestEntries_Even _ _ _ He') as Heven'.
  assert (Key rule ∉ keyTexts before) as Hskip by apply Hbefore, list_elem_of_here.
  assert (Key rule ∉ keyTexts e') as Hskip'.
  { rewrite Hkeys'. intros [_ ?]%list_elem_of_filter. done. }
  simpl. rewrite ruleEntries_findPair, Hcontent, findPair_app_skip by done.
  rewrite ruleEntries_findPair in He.
  destruct (findPair (Key rule) (Content inputNode)) as [[[k v]|]|] eqn:Hfind;
    [|injection He as <-|done].
  - assert (∃ node, e = [k; node] ∧
              if decide (0 < length (Include rule))
              then project (Include rule) v = Ok node else node = v)
      as (node & -> & Hnode).
    { destruct (decide (0 < length (Include rule))).
      - apply bind_Ok in He as (node & ? & [= <-]). eauto.
      - injection He as <-. eauto. }
    apply findPair_Found in Hfind as [Hkey _].
    simpl. rewrite decide_True by done.
    assert (forestEntries rest outputNode = Ok e') as ->.
    { apply (IH Hnested Hdistinct inputNode e' He' (before ++ [k; node])).
      - rewrite length_app. simpl. destruct Heven as [m ->]. exists (S m). lia.
      - intros r Hr. unfold keyTexts, keyNodes in *.
        rewrite pairsOf_app_Even by done. simpl.
        rewrite !fmap_app, elem_of_app. simpl. rewrite list_elem_of_singleton.
        intros [Hin|Heq].
        + by apply (Hbefore r (list_elem_of_further _ _ _ Hr)).
        + apply Hfirst. rewrite <- Hkey, <- Heq. by apply list_elem_of_fmap_2.
      - by rewrite Hcontent, <- app_assoc. }
    destruct (decide (0 < length (Include rule))) as [Hlen|Hlen]; [|by subst].
    by rewrite (Hrule Hlen _ _ Hnode).
  - simpl. rewrite (proj2 (findPair_NotFound _ _)) by done. simpl.
    rewrite (IH Hnested Hdistinct inputNode e' He' before outputNode); try done.
    intros r Hr. apply Hbefore. by apply list_elem_of_further.
Qed.

Lemma project_idempotent_forest rules :
  NoDup (Key <$> rules) →
  Forall (λ rule, ∀ input output, project (Include rule) input = Ok output →
                                  project (Include rule) output = Ok output) rules →
  ∀ input output, project rules input = Ok output → project rules output = Ok output.
Proof.
  intros Hdistinct Hnested input output (Hkind & entries & Hentries & ->)%project_Ok.
  apply project_Ok. split; [done|]. exists entries. split; [|done].
  apply (forestEntries_again rules) with (inputNode := input) (before := []);
    try done.
  - eapply Forall_impl; [exact Hnested|]. auto.
  - by exists 0.
  - intros r _. apply not_elem_of_nil.
Qed.

Lemma project_idempotent_rule rule :
  distinctKeysRule rule →
  ∀ input output, project (Include rule) input = Ok output →
                  project (Include rule) output = Ok output.
Proof.
  revert rule. apply (rule_forest_ind
      (λ rule, distinctKeysRule rule →
               ∀ input output, project (Include rule) input = Ok output →
                               project (Include rule) output = Ok output)
      (λ rules, Forall (λ rule, distinctKeysRule rule →
               ∀ input output, project (Include rule) input = Ok output →
                               project (Include rule) output = Ok output) rules)).
  - intros key include IH [Hdistinct Hall]%distinctKeysRule_eq. simpl.
    apply project_idempotent_forest; [done|].
    apply Forall_forall. intros rule Hrule.
    rewrite Forall_forall in IH, Hall. apply (IH rule Hrule), Hall, Hrule.
  - apply Forall_nil_2.
  - intros rule rest IHrule IHrest. by apply Forall_cons.
Qed.

(** Projecting a projected tree again gives the same tree, when no forest
    repeats a key. *)
Lemma project_idempotent rules input output :
  distinctKeys rules →
  project rules input = Ok output → project rules output = Ok output.
Proof. intros Hdistinct. by apply (project_idempotent_rule _ Hdistinct). Qed.

Lemma alike_inv n n' :
  alike n n' →
  Kind n = Kind n' ∧ Value n = Value n' ∧ Forall2 alike (Content n) (Content n') ∧
  (Style n = Style n' ∨
   Content n = [] ∧ plainStyle (Style n) ∧ plainStyle (Style n')).
Proof. destruct 1. split_and!; try done. tauto. Qed.

Lemma alike_output n n' entries entries' :
  alike n n' → Forall2 alike entries entries' →
  (Content n = [] → entries = []) →
  alike (outputMapping (Style n) entries) (outputMapping (Style n') entries').
Proof.
  intros (_ & _ & _ & Hstyle)%alike_inv Hall Hempty.
  constructor; simpl; try done; [by left| |constructor].
  destruct Hstyle as [?|(Hnil & ? & ?)]; [by left|right].
  by rewrite (Hempty Hnil).
Qed.

Lemma findPair_alike key (content content' : list Node) :
  Forall2 alike content content' →
  match findPair key content, findPair key content' with
  | Some (Some (k, v)), Some (Some (k', v')) => alike k k' ∧ alike v v'
  | Some None, Some None => True
  | None, None => True
  | _, _ => False
  end.
Proof.
  revert content'.
  induction content as [|x|x y l IH] using list_pair_ind; intros content' Hall.
  - by apply Forall2_nil_inv_l in Hall as ->.
  - apply Forall2_cons_inv_l in Hall as (x' & l' & _ & ->%Forall2_nil_inv_l & ->). done.
  - apply Forall2_cons_inv_l in Hall as (x' & l1 & Hx & Hall & ->).
    apply Forall2_cons_inv_l in Hall as (y' & l' & Hy & Hall & ->). simpl.
    pose proof (alike_inv _ _ Hx) as (_ & <- & _).
    destruct (decide (Value x = key)); [done|]. by apply IH.
Qed.

Lemma forestEntries_empty rules inputNode entries :
  Content inputNode = [] → forestEntries rules inputNode = Ok entries → entries = [].
Proof.
  intros Hnil Hentries.
  rewrite forestEntries_none in Hentries; [by injection Hentries|..].
  - rewrite Hnil. by exists 0.
  - intros rule _. rewrite Hnil. apply not_elem_of_nil.
Qed.

Lemma forestEntries_alike rules :
  ∀ input input', alike input input' →
    ∀ entries, forestEntries rules input = Ok entries →
      ∃ entries', forestEntries rules input' = Ok entries' ∧
                  Forall2 alike entries entries'.
Proof.
  revert rules. apply (forest_rule_ind
      (λ rule, ∀ input input', alike input input' →
          ∀ entries, ruleEntries rule input = Ok entries →
            ∃ entries', ruleEntries rule input' = Ok entries' ∧
                        Forall2 alike entries entries')
      (λ rules, ∀ input input', alike input input' →
          ∀ entries, forestEntries rules input = Ok entries →
            ∃ entries', forestEntries rules input' = Ok entries' ∧
                        Forall2 alike entries entries')).
  - intros key include IH input input' Hinput entries.
    rewrite !ruleEntries_findPair. simpl.
    pose proof (alike_inv _ _ Hinput) as (_ & _ & Hcontent & _).
    pose proof (findPair_alike key _ _ Hcontent) as Hfind.
    destruct (findPair key (Content input)) as [[[k v]|]|];
      destruct (findPair key (Content input')) as [[[k' v']|]|]; try done.
    + destruct Hfind as [Hk Hv].
      destruct (decide (0 < length include)).
      * intros (node & (Hkind & es & Hes & ->)%project_Ok & [= <-])%bind_Ok.
        destruct (IH v v' Hv es Hes) as (es' & Hes' & Hall).
        exists [k'; outputMapping (Style v') es']. split.
        -- rewrite (proj2 (project_Ok include v' (outputMapping (Style v') es'))); [done|].
           pose proof (alike_inv _ _ Hv) as (<- & _). eauto.
        -- apply Forall2_cons_2; [done|]. apply Forall2_cons_2; [|constructor].
           apply alike_output; [done|done|].
           intros Hnil. by eapply forestEntries_empty.
      * intros [= <-]. exists [k'; v']. split; [done|].
        apply Forall2_cons_2; [done|]. apply Forall2_cons_2; [done|]. constructor.
    + intros [= <-]. exists []. split; [done|]. constructor.
  - intros input input' _ entries [= <-]. exists []. split; [done|]. constructor.
  - intros rule rest IHrule IHrest input input' Hinput entries
      (e & e' & He & He' & ->)%forestEntries_cons_Ok.
    destruct (IHrule _ _ Hinput _ He) as (e1 & He1 & Hall1).
    destruct (IHrest _ _ Hinput _ He') as (e2 & He2 & Hall2).
    exists (e1 ++ e2). simpl. rewrite He1, He2. split; [done|]. by apply Forall2_app.
Qed.

(** The engine cannot tell alike trees apart: on alike inputs it builds
    alike outputs. *)
Lemma project_alike rules input input' output :
  alike input input' → project rules input = Ok output →
  ∃ output', project rules input' = Ok output' ∧ alike output output'.
Proof.
  intros Hinput (Hkind & entries & Hentries & ->)%project_Ok.
  destruct (forestEntries_alike rules _ _ Hinput _ Hentries)
    as (entries' & Hentries' & Hall).
  exists (outputMapping (Style input') entries'). split.
  - apply project_Ok. pose proof (alike_inv _ _ Hinput) as (<- & _). eauto.
  - apply alike_output; [done|done|]. intros Hnil. by eapply forestEntries_empty.
Qed.

(** C3, amended.  When no rule forest repeats a key, at any level, the
    parser reads the bytes [trim] produced back as one document whose tree
    is [alike] the projected tree (it differs at most in positions, in the
    tag of a mapping being empty or [!!map], and in the style of an empty
    mapping), and the encoder writes alike trees to the same bytes, then
    [trim] on those bytes with the same rules succeeds with the same bytes. *)
Theorem trim_idempotent yaml input rules output :
  distinctKeys rules →
  (∀ n n', alike n n' → yamlEncode yaml 2 n = yamlEncode yaml 2 n') →
  trim yaml input rules = Ok output →
  (∀ root node projected,
      yamlUnmarshal yaml input = inl root → Content root = [node] →
      project rules node = Ok projected →
      ∃ root' node',
        yamlUnmarshal yaml output = inl root' ∧ Content root' = [node'] ∧
        alike projected node') →
  trim yaml output rules = Ok output.
Proof.
  intros Hdistinct Hencoder
    (root & node & projected & Hroot & Hcontent & Hproject & Hencode)%trim_Ok Hback.
  destruct (Hback _ _ _ Hroot Hcontent Hproject)
    as (root' & node' & Hroot' & Hcontent' & Halike).
  pose proof (project_idempotent _ _ _ Hdistinct Hproject) as Hagain.
  destruct (project_alike _ _ _ _ Halike Hagain) as (projected' & Hproject' & Halike').
  apply trim_Ok. exists root', node', projected'. split_and!; try done.
  by rewrite <- (Hencoder _ _ Halike').
Qed.

(** ** The stand-in codec and alike trees *)

Section Node_induction.
Variable P : Node → Prop.
Hypothesis Hnode :
  ∀ n, Forall P (Content n) → (∀ a, Alias n = Some a → P a) → P n.

Fixpoint Node_tree_ind (n : Node) : P n :=
  match n with
  | mkNode kind style tag value anchor alias content head line foot l c =>
      Hnode (mkNode kind style tag value anchor alias content head line foot l c)
        ((fix all (ns : list Node) : Forall P ns :=
            match ns with
            | [] => Forall_nil_2 P
            | x :: ns' => Forall_cons_2 P x ns' (Node_tree_ind x) (all ns')
            end) content)
        (match alias as o return ∀ a, o = Some a → P a with
         | Some a' => λ a Heq, eq_ind a' P (Node_tree_ind a') a (Some_inj _ _ Heq)
         | None => λ a Heq, False_ind _ (None_ne_Some _ Heq)
         end)
  end.
End Node_induction.

Lemma similar_inv n n' :
  similar n n' →
  Kind n = Kind n' ∧ Value n = Value n' ∧ Forall2 similar (Content n) (Content n').
Proof. by destruct 1. Qed.

Lemma emitPairs_similar n :
  ∀ n' indent level, similar n n' → emitPairs indent level n = emitPairs indent level n'.
Proof.
  induction n as [n IH _] using Node_tree_ind.
  intros n' indent level (_ & _ & Hall)%similar_inv.
  destruct n as [? ? ? ? ? ? content ? ? ? ? ?], n' as [? ? ? ? ? ? content' ? ? ? ? ?].
  simpl in *. revert content' Hall.
  induction content as [|x|x y l IHl] using list_pair_ind; intros content' Hall.
  - by apply Forall2_nil_inv_l in Hall as ->.
  - apply Forall2_cons_inv_l in Hall as (x' & l' & _ & ->%Forall2_nil_inv_l & ->). done.
  - apply Forall2_cons_inv_l in Hall as (x' & l1 & Hx & Hall & ->).
    apply Forall2_cons_inv_l in Hall as (y' & l' & Hy & Hall & ->).
    apply Forall_cons in IH as [_ [IHy IH]%Forall_cons].
    rewrite (IHl IH l' Hall).
    apply similar_inv in Hx as (_ & -> & _).
    pose proof (IHy y' indent (S level) Hy) as Hrec.
    apply similar_inv in Hy as (-> & -> & Hcontent).
    destruct (Kind y'); try done.
    destruct Hcontent; [done|]. by rewrite Hrec.
Qed.

Lemma emitDocument_similar n n' indent :
  similar n n' → emitDocument indent n = emitDocument indent n'.
Proof.
  intros Hsim. unfold emitDocument.
  rewrite (emitPairs_similar _ _ indent 0 Hsim).
  apply similar_inv in Hsim as (-> & -> & Hcontent).
  by destruct Hcontent.
Qed.

Lemma alike_similar n : ∀ n', alike n n' → similar n n'.
Proof.
  induction n as [n IH _] using Node_tree_ind.
  intros n' (Hkind & Hvalue & Hcontent & _)%alike_inv.
  constructor; [done|done|].
  clear Hkind Hvalue.
  induction Hcontent as [|x y l l' Hxy Hall IHall]; constructor.
  - apply Forall_cons in IH as [IHx _]. by apply IHx.
  - apply Forall_cons in IH as [_ IH]. by apply IHall.
Qed.

Lemma miniEncode_alike n n' :
  alike n n' → yamlEncode miniYaml 2 n = yamlEncode miniYaml 2 n'.
Proof.
  intros Hsim%alike_similar. simpl. unfold miniEncode.
  by rewrite (emitDocument_similar _ _ 2 Hsim).
Qed.

Lemma alike_scalar tag value line column line' column' :
  alike (scalarNode tag value line column) (scalarNode tag value line' column').
Proof.
  constructor; simpl;
    [done|done|done|done|done|done|by left|by left|constructor|constructor].
Qed.

(** A mapping that [filterByRules] built and the same mapping as the parser
    records it. *)
Lemma alike_reread style content content' line column :
  plainStyle style → Forall2 alike content content' →
  alike (outputMapping style content)
        (mkNode MappingNode style "!!map" "" "" None content' "" "" "" line column).
Proof.
  intros Hstyle Hall.
  constructor; simpl;
    [done|done|done|done|done|done| |by left|constructor|done].
  right. unfold mapTag. auto.
Qed.

Lemma trim_idempotent_witness :
  trim miniYaml (String.list_byte_of_string oneFieldText) oneFieldRules =
    Ok (String.list_byte_of_string oneFieldText) ∧
  trim miniYaml (String.list_byte_of_string emptyMappingText) [leafRule "nonexistent"] =
    Ok (String.list_byte_of_string emptyMappingText).
Proof.
  split.
  - apply (trim_idempotent miniYaml
             (String.list_byte_of_string twoFieldsText) oneFieldRules).
    + vm_compute. repeat constructor; by intros ?%elem_of_nil.
    + apply miniEncode_alike.
    + vm_compute. reflexivity.
    + intros root node projected Hroot Hcontent Hproject.
      vm_compute in Hroot. injection Hroot as <-.
      vm_compute in Hcontent. injection Hcontent as <-.
      vm_compute in Hproject. injection Hproject as <-.
      exists (documentNode oneFieldTree), oneFieldTree.
      split_and!; [vm_compute; reflexivity|reflexivity|].
      apply (alike_reread 0); [by left|].
      apply Forall2_cons_2; [apply alike_scalar|].
      apply Forall2_cons_2; [|constructor].
      apply (alike_reread 0); [by left|].
      apply Forall2_cons_2; [apply alike_scalar|].
      apply Forall2_cons_2; [apply alike_scalar|constructor].
  - apply (trim_idempotent miniYaml
             (String.list_byte_of_string twoFieldsText) [leafRule "nonexistent"]).
    + vm_compute. repeat constructor; by intros ?%elem_of_nil.
    + apply miniEncode_alike.
    + vm_compute. reflexivity.
    + intros root node projected Hroot Hcontent Hproject.
      vm_compute in Hroot. injection Hroot as <-.
      vm_compute in Hcontent. injection Hcontent as <-.
      vm_compute in Hproject. injection Hproject as <-.
      exists (documentNode emptyMappingTree), emptyMappingTree.
      split_and!; [vm_compute; reflexivity|reflexivity|].
      assert (plainStyle 0 ∧ plainStyle FlowStyle ∧ mapTag "" ∧ mapTag "!!map")
        as (Hblock & Hflow & Hnone & Hmap) by (unfold plainStyle, mapTag; auto).
      constructor; simpl;
        [done|done|done|done|done|done|by right|by right|constructor|constructor].
Defined.

(** ** The call on the store computes the call on trees *)

Lemma represents_inv f p n :
  represents f p n →
  ∃ alias content,
    f !! p = Some (cellOf n alias content) ∧
    option_Forall2 (represents f) alias (Alias n) ∧
    Forall2 (represents f) content (Content n).
Proof. destruct 1. eauto. Qed.

Lemma represents_mono f f' n :
  f ⊆ f' → ∀ p, represents f p n → represents f' p n.
Proof.
  intros Hsub. induction n as [n IH IHalias] using Node_tree_ind.
  intros p (alias & content & Hp & Halias & Hcontent)%represents_inv.
  apply (represents_intro _ _ _ alias content).
  - by eapply lookup_weaken.
  - destruct Halias as [q a Hq|]; constructor. by eapply IHalias.
  - clear Hp. induction Hcontent as [|q x qs xs Hq _ IHqs]; constructor.
    + apply Forall_cons in IH as [IHx _]. by apply IHx.
    + apply Forall_cons in IH as [_ IH]. by apply IHqs.
Qed.

Lemma holdsOutput_represents f h p n :
  f ⊆ h → holdsOutput f h p n → represents h p n.
Proof.
  intros Hsub (alias & content & Hp & Halias & Hcontent).
  apply (represents_intro _ _ _ alias content); [done| |].
  - destruct Halias; constructor. by eapply represents_mono.
  - eapply Forall2_impl; [done|]. intros. by eapply represents_mono.
Qed.

Lemma holdsOutput_mono f f' h p n :
  f ⊆ f' → holdsOutput f h p n → holdsOutput f' h p n.
Proof.
  intros Hsub (alias & content & Hp & Halias & Hcontent).
  exists alias, content. split_and!; [done| |].
  - destruct Halias; constructor. by eapply represents_mono.
  - eapply Forall2_impl; [done|]. intros. by eapply represents_mono.
Qed.

Lemma scanFromAt_represents f h key (ptrs : list positive) (content : list Node) i :
  f ⊆ h → Forall2 (represents f) ptrs content →
  match scanFromAt h key ptrs i, scanFrom key content i with
  | FoundAt j keyPtr valuePtr, Found j' keyNode valueNode =>
      j = j' ∧ represents f keyPtr keyNode ∧ represents f valuePtr valueNode
  | NotFoundAt, NotFound => True
  | OutOfRangeAt j, OutOfRange j' => j = j'
  | _, _ => False
  end.
Proof.
  intros Hsub Hall. pose proof (Forall2_length _ _ _ Hall) as Hlen.
  remember (length content - i) as m eqn:Hm.
  revert i Hm. induction (lt_wf m) as [m _ IH]. intros i ->.
  rewrite scanFromAt_eq, scanFrom_eq, Hlen.
  destruct (decide (i < length content)) as [Hlt|Hge]; [|done].
  destruct (content !! i) as [k|] eqn:Hk; [|apply lookup_ge_None in Hk; lia].
  destruct (Forall2_lookup_r _ _ _ _ _ Hall Hk) as (kp & -> & Hkp).
  destruct (content !! (i + 1)) as [v|] eqn:Hv.
  - destruct (Forall2_lookup_r _ _ _ _ _ Hall Hv) as (vp & -> & Hvp).
    pose proof (represents_inv _ _ _ Hkp) as (alias & c & Hcell & _).
    rewrite (lookup_weaken _ _ _ _ Hcell Hsub). simpl.
    destruct (decide (Value k = key)); [done|].
    apply (IH (length content - (i + 2))); lia.
  - apply lookup_ge_None in Hv.
    rewrite (proj2 (lookup_ge_None ptrs (i + 1))) by lia. done.
Qed.

Lemma not_elem_of_dom_None (f : gmap positive Cell) p : p ∉ dom f → f !! p = None.
Proof. by intros ?%not_elem_of_dom. Qed.

Lemma modify_holds f h outputNode n (g : Cell → Cell) (g' : Node → Node) :
  f ⊆ h → outputNode ∉ dom f → holdsOutput f h outputNode n →
  (∀ alias content, g (cellOf n alias content) = cellOf (g' n) alias content) →
  Alias (g' n) = Alias n → Content (g' n) = Content n →
  ∃ h1, modify g outputNode h = Ok h1 ∧ f ⊆ h1 ∧
        holdsOutput f h1 outputNode (g' n) ∧ dom h1 = dom h.
Proof.
  intros Hsub Hout (alias & content & Hp & Halias & Hcontent) Hg Ha Hc.
  exists (<[outputNode := g (cellOf n alias content)]> h). split_and!.
  - apply modify_Ok. eauto.
  - apply insert_subseteq_r; [by apply not_elem_of_dom_None|done].
  - exists alias, content. rewrite lookup_insert_eq, Hg, Ha, Hc. done.
  - rewrite dom_insert_L. apply elem_of_dom_2 in Hp.
    apply subseteq_union_1_L. by apply singleton_subseteq_l.
Qed.

Lemma appendContentAt_holds f h outputNode n q child :
  f ⊆ h → outputNode ∉ dom f → holdsOutput f h outputNode n →
  represents f q child →
  ∃ h1, appendContentAt outputNode q h = Ok h1 ∧ f ⊆ h1 ∧
        holdsOutput f h1 outputNode (appendContent n child) ∧ dom h1 = dom h.
Proof.
  intros Hsub Hout (alias & content & Hp & Halias & Hcontent) Hq.
  exists (<[outputNode := cellSetContent (cellOf n alias content) (content ++ [q])]> h).
  split_and!.
  - apply modify_Ok. eauto.
  - apply insert_subseteq_r; [by apply not_elem_of_dom_None|done].
  - exists alias, (content ++ [q]). rewrite lookup_insert_eq. split_and!; [done..|].
    simpl. apply Forall2_app; [done|]. by repeat constructor.
  - rewrite dom_insert_L. apply elem_of_dom_2 in Hp.
    apply subseteq_union_1_L. by apply singleton_subseteq_l.
Qed.

Lemma agree_bind {A B A' B'} (rel : A → B → Prop) (rel' : A' → B' → Prop)
    (m : outcome A) (m' : outcome B) (k : A → outcome A') (k' : B → outcome B') :
  agree rel m m' →
  (∀ a b, m = Ok a → m' = Ok b → rel a b → agree rel' (k a) (k' b)) →
  agree rel' (m ≫= k) (m' ≫= k').
Proof. destruct m, m'; simpl; try done. intros Hrel Hk. by apply Hk. Qed.

Lemma builtOn_start f h outputNode n :
  f ⊆ h → holdsOutput f h outputNode n → builtOn f h outputNode h n.
Proof. intros Hsub Hout. exists f. done. Qed.

Lemma builtOn_trans f h h1 outputNode f1 h2 output :
  f ⊆ f1 → (∀ p, p ∈ dom f1 → p ∈ dom h → p ∈ dom f) → dom h ⊆ dom h1 →
  builtOn f1 h1 outputNode h2 output → builtOn f h outputNode h2 output.
Proof.
  intros Hsub Hnew Hdom (f2 & Hsub2 & Hsub2' & Hnew2 & Hout).
  exists f2. split_and!; [by etrans|done| |done].
  intros p Hp Hph. apply Hnew; [|done]. apply Hnew2; [done|]. set_solver.
Qed.

Lemma filterByRulesAt_agrees_loop rules :
  (∀ f h inputNode outputNode input output,
      f ⊆ h → outputNode ∉ dom f →
      represents f inputNode input → holdsOutput f h outputNode output →
      agree (builtOn f h outputNode)
        (rangeRulesAt (λ rule h, rangeBodyAt rule inputNode outputNode h) rules h)
        (rangeRules (λ rule out, rangeBody rule input out) rules output)) →
  ∀ f h inputNode outputNode input output,
    f ⊆ h → outputNode ∉ dom f →
    represents f inputNode input → holdsOutput f h outputNode output →
    agree (builtOn f h outputNode)
      (filterByRulesAt rules inputNode outputNode h)
      (filterByRules rules input output).
Proof.
  intros Hloop f h inputNode outputNode input output Hsub Hout Hin Hhold.
  rewrite filterByRulesAt_eq. unfold filterByRules, filterByRulesWith.
  pose proof (represents_inv _ _ _ Hin) as (alias & content & Hcell & _).
  rewrite (proj2 (load_Ok h inputNode _) (lookup_weaken _ _ _ _ Hcell Hsub)). simpl.
  destruct (decide (Kind input ≠ MappingNode)); [done|].
  destruct (modify_holds f h outputNode output
              (λ c, cellSetKind c MappingNode) (λ n, setKind n MappingNode))
    as (h1 & -> & Hsub1 & Hhold1 & Hdom1); try done. simpl.
  rewrite (proj2 (load_Ok h1 inputNode _) (lookup_weaken _ _ _ _ Hcell Hsub1)). simpl.
  destruct (modify_holds f h1 outputNode (setKind output MappingNode)
              (λ c, cellSetStyle c (Style input)) (λ n, setStyle n (Style input)))
    as (h2 & -> & Hsub2 & Hhold2 & Hdom2); try done. simpl.
  specialize (Hloop f h2 inputNode outputNode input _ Hsub2 Hout Hin Hhold2).
  destruct (rangeRulesAt _ rules h2) as [h'| | |], (rangeRules _ rules _) as [out'| | |];
    simpl in *; try done.
  destruct Hloop as (f' & ? & ? & Hnew & ?). exists f'. split_and!; try done.
  intros p Hp Hph. apply Hnew; [done|]. by rewrite Hdom2, Hdom1.
Qed.

Lemma rangeRulesAt_agrees rules :
  ∀ f h inputNode outputNode input output,
    f ⊆ h → outputNode ∉ dom f →
    represents f inputNode input → holdsOutput f h outputNode output →
    agree (builtOn f h outputNode)
      (rangeRulesAt (λ rule h, rangeBodyAt rule inputNode outputNode h) rules h)
      (rangeRules (λ rule out, rangeBody rule input out) rules output).
Proof.
  revert rules. apply (forest_rule_ind
      (λ rule, ∀ f h inputNode outputNode input output,
          f ⊆ h → outputNode ∉ dom f →
          represents f inputNode input → holdsOutput f h outputNode output →
          agree (builtOn f h outputNode)
            (rangeBodyAt rule inputNode outputNode h)
            (rangeBody rule input output))
      (λ rules, ∀ f h inputNode outputNode input output,
          f ⊆ h → outputNode ∉ dom f →
          represents f inputNode input → holdsOutput f h outputNode output →
          agree (builtOn f h outputNode)
            (rangeRulesAt (λ rule h, rangeBodyAt rule inputNode outputNode h) rules h)
            (rangeRules (λ rule out, rangeBody rule input out) rules output))).
  - intros key include IH f h inputNode outputNode input output Hsub Hout Hin Hhold.
    rewrite rangeBodyAt_eq, rangeBody_eq.
    pose proof (represents_inv _ _ _ Hin) as (alias & content & Hcell & _ & Hcontent).
    rewrite (proj2 (load_Ok h inputNode _) (lookup_weaken _ _ _ _ Hcell Hsub)). simpl.
    pose proof (scanFromAt_represents f h key content (Content input) 0 Hsub Hcontent)
      as Hscan.
    destruct (scanFromAt h key content 0) as [i kp vp| |i|i],
             (scanFrom key (Content input) 0) as [i' k v| |i']; try done.
    2:{ by apply builtOn_start. }
    destruct Hscan as (_ & Hk & Hv).
    destruct (appendContentAt_holds f h outputNode output kp k)
      as (h1 & -> & Hsub1 & Hhold1 & Hdom1); try done. simpl.
    destruct (decide (0 < length include)).
    + pose proof (is_fresh (dom h1)) as Hfresh.
      set (nested := fresh (dom h1)) in *.
      assert (nested ∉ dom f) as Hnf.
      { intros ?. apply Hfresh. by apply (subseteq_dom _ _ Hsub1). }
      assert (outputNode ∈ dom h1) as Hoh.
      { destruct Hhold1 as (? & ? & ? & _). by eapply elem_of_dom_2. }
      assert (outputNode ≠ nested) as Hne by (intros ->; done).
      assert (f ⊆ <[nested := zeroCell]> h1) as Hsub2.
      { apply insert_subseteq_r; [by apply not_elem_of_dom_None|done]. }
      assert (holdsOutput f (<[nested := zeroCell]> h1) nested zeroNode) as Hhold2.
      { exists None, []. rewrite lookup_insert_eq. split_and!; [done|constructor..]. }
      pose proof (filterByRulesAt_agrees_loop include IH f _ vp nested v zeroNode
                    Hsub2 Hnf Hv Hhold2) as Hnested.
      pose proof (filterByRulesAt_preserves include vp nested
                    (<[nested := zeroCell]> h1)) as Hpres.
      destruct (filterByRulesAt include vp nested _) as [h3| | |],
               (filterByRules include v zeroNode) as [nestedOut| | |];
        simpl in *; try done.
      destruct Hnested as (f' & Hff' & Hf'h3 & Hnew & Hhold3).
      destruct (Hpres h3 eq_refl) as [Hdom3 Hsame3].
      assert (nested ∉ dom f') as Hnf'.
      { intros ?. apply Hnf, Hnew; [done|]. rewrite dom_insert_L.
        by apply elem_of_union_l, elem_of_singleton. }
      assert (outputNode ∉ dom f') as Hof'.
      { intros ?. apply Hout, Hnew; [done|]. rewrite dom_insert_L.
        by apply elem_of_union_r. }
      destruct Hhold3 as (alias3 & content3 & Hcell3 & Halias3 & Hcontent3).
      set (f'' := <[nested := cellOf nestedOut alias3 content3]> f').
      assert (f' ⊆ f'') as Hf'f''.
      { apply insert_subseteq. by apply not_elem_of_dom_None. }
      assert (f'' ⊆ h3) as Hf''h3 by (by apply insert_subseteq_l).
      assert (represents f'' nested nestedOut) as Hrep.
      { apply (represents_intro _ _ _ alias3 content3).
        - apply lookup_insert_eq.
        - destruct Halias3; constructor. by eapply represents_mono.
        - eapply Forall2_impl; [done|]. intros. by eapply represents_mono. }
      assert (outputNode ∉ dom f'') as Hof''.
      { unfold f''. rewrite dom_insert_L, not_elem_of_union, not_elem_of_singleton.
        done. }
      assert (holdsOutput f'' h3 outputNode (appendContent output k)) as Hhold4.
      { apply (holdsOutput_mono f); [by etrans|].
        destruct Hhold1 as (a1 & c1 & Hc1 & ?). exists a1, c1. split; [|done].
        rewrite Hsame3, lookup_insert_ne; [done..|].
        rewrite dom_insert_L. by apply elem_of_union_r. }
      destruct (appendContentAt_holds f'' h3 outputNode (appendContent output k) nested nestedOut)
        as (h4 & -> & Hsub4 & Hhold5 & Hdom4); try done. simpl.
      exists f''. split_and!; [by etrans|done| |done].
      intros p Hp Hph. unfold f'' in Hp. rewrite dom_insert_L in Hp.
      apply elem_of_union in Hp as [->%elem_of_singleton|Hp].
      * destruct Hfresh. by rewrite Hdom1.
      * apply Hnew; [done|]. rewrite dom_insert_L, Hdom1. by apply elem_of_union_r.
    + destruct (appendContentAt_holds f h1 outputNode (appendContent output k) vp v)
        as (h2 & -> & Hsub2 & Hhold2 & Hdom2); try done. simpl.
      exists f. split_and!; done.
  - intros f h inputNode outputNode input output Hsub Hout Hin Hhold. simpl.
    by apply builtOn_start.
  - intros rule rest IHrule IHrest f h inputNode outputNode input output
      Hsub Hout Hin Hhold. simpl.
    apply (agree_bind (builtOn f h outputNode)); [by apply IHrule|].
    intros h1 out1 Hrun _ (f1 & Hff1 & Hf1h1 & Hnew & Hhold1).
    assert (dom h ⊆ dom h1) as Hdom.
    { apply (rangeRulesAt_preserves [rule] inputNode outputNode). simpl. by rewrite Hrun. }
    assert (outputNode ∉ dom f1) as Hout1.
    { intros ?. apply Hout, Hnew; [done|].
      destruct Hhold as (? & ? & ? & _). by eapply elem_of_dom_2. }
    specialize (IHrest f1 h1 inputNode outputNode input out1 Hf1h1 Hout1
                  (represents_mono _ _ _ Hff1 _ Hin) Hhold1).
    destruct (rangeRulesAt _ rest h1), (rangeRules _ rest out1); simpl in *; try done.
    by eapply builtOn_trans.
Qed.

(** The store model and the tree model agree: a call of [projectAt] on a
    store that holds the tree [input] at [inputNode] ends as [project] does
    on [input], and the store it returns holds the projected tree at the
    output location. *)
Lemma projectAt_refines rules inputNode h input :
  represents h inputNode input →
  agree (λ '(outputNode, h') output, h ⊆ h' ∧ represents h' outputNode output)
    (projectAt rules inputNode h) (project rules input).
Proof.
  intros Hin. unfold projectAt, project.
  pose proof (is_fresh (dom h)) as Hfresh. set (out := fresh (dom h)) in *.
  assert (h ⊆ <[out := zeroCell]> h) as Hsub.
  { apply insert_subseteq. by apply not_elem_of_dom_None. }
  assert (holdsOutput h (<[out := zeroCell]> h) out zeroNode) as Hhold.
  { exists None, []. rewrite lookup_insert_eq. split_and!; [done|constructor..]. }
  pose proof (filterByRulesAt_agrees_loop rules (rangeRulesAt_agrees rules)
                h _ inputNode out input zeroNode Hsub Hfresh Hin Hhold) as Hrun.
  destruct (filterByRulesAt rules inputNode out _), (filterByRules rules input zeroNode);
    simpl in *; try done.
  destruct Hrun as (f' & Hsub' & Hsub'' & _ & Hhold').
  split; [by etrans|]. by eapply holdsOutput_represents.
Qed.

(** * Further properties of the engine *)

(** ** Well-formed output *)

Lemma forestEntries_wellFormed rules :
  ∀ inputNode entries,
    wellFormed inputNode = true → forestEntries rules inputNode = Ok entries →
    Forall (λ n, wellFormed n = true) entries.
Proof.
  revert rules. apply (forest_rule_ind
      (λ rule, ∀ inputNode entries,
          wellFormed inputNode = true → ruleEntries rule inputNode = Ok entries →
          Forall (λ n, wellFormed n = true) entries)
      (λ rules, ∀ inputNode entries,
          wellFormed inputNode = true → forestEntries rules inputNode = Ok entries →
          Forall (λ n, wellFormed n = true) entries)).
  - intros key include IH inputNode entries Hwf Hentries.
    pose proof (proj1 (wellFormed_eq _) Hwf) as [_ Hchildren].
    apply ruleEntries_Ok in Hentries
      as [[_ ->]|(i & k & v & node & Hscan & -> & Hnode)]; [constructor|].
    pose proof (scanFrom_view key (Content inputNode)) as Hview. simpl in Hscan.
    rewrite Hscan in Hview. symmetry in Hview.
    apply findPair_Found in Hview as [_ [Hk Hv]%pairsOf_elem].
    repeat constructor; [by apply Hchildren|]. simpl in Hnode.
    destruct (decide (0 < length include)); [|subst; by apply Hchildren].
    apply (project_Ok include v node) in Hnode as (_ & es & Hes & ->).
    apply wellFormed_eq. simpl. split.
    + intros _. by eapply forestEntries_Even.
    + apply Forall_forall. eapply IH; [|done]. by apply Hchildren.
  - intros inputNode entries _ [= <-]. constructor.
  - intros rule rest IHrule IHrest inputNode entries Hwf
      (e & e' & He & He' & ->)%forestEntries_cons_Ok.
    apply Forall_app. eauto.
Qed.

(** X1. The projection of a well-formed tree is well formed: every mapping
    in the result, the new ones included, holds whole (key, value) pairs. *)
Theorem project_wellFormed rules input output :
  wellFormed input = true → project rules input = Ok output →
  wellFormed output = true.
Proof.
  intros Hwf (_ & entries & Hentries & ->)%project_Ok.
  apply wellFormed_eq. simpl. split.
  - intros _. by eapply forestEntries_Even.
  - apply Forall_forall. by eapply forestEntries_wellFormed.
Qed.

Lemma project_wellFormed_witness : wellFormed nestedOutput = true.
Proof.
  apply (project_wellFormed nestedRules sampleDocument nestedOutput);
    vm_compute; reflexivity.
Defined.

(** ** Rules one after the other *)

(** X3. Running the forest [rules ++ rules'] is running [rules] and then
    [rules'] on the output node the first run left, failures included. *)
Theorem filterByRules_app rules rules' inputNode outputNode :
  filterByRules (rules ++ rules') inputNode outputNode =
  filterByRules rules inputNode outputNode ≫= filterByRules rules' inputNode.
Proof.
  rewrite !filterByRules_entries, forestEntries_app.
  destruct (decide (Kind inputNode ≠ MappingNode)) as [|Hkind]; [done|].
  destruct (forestEntries rules inputNode) as [entries| | |]; simpl; try done.
  rewrite filterByRules_entries, decide_False by done.
  destruct (forestEntries rules' inputNode) as [entries'| | |]; simpl; try done.
  by rewrite <- app_assoc.
Qed.

(** ** Including every key *)

Lemma forestEntries_all_keys inputNode (before rest : list Node) :
  Content inputNode = before ++ rest →
  Nat.Even (length before) → Nat.Even (length rest) →
  NoDup (keyTexts (Content inputNode)) →
  forestEntries (leafRule <$> keyTexts rest) inputNode = Ok rest.
Proof.
  intros Hcontent Hbefore Hrest Hnodup. revert before Hcontent Hbefore.
  induction rest as [|k|k v rest IH] using list_pair_ind; intros before Hcontent Hbefore.
  - done.
  - destruct Hrest as [m Hm]. simpl in Hm. lia.
  - simpl in Hrest. rewrite Nat.Even_succ_succ in Hrest.
    unfold keyTexts, keyNodes in *. simpl.
    rewrite ruleEntries_findPair. simpl.
    rewrite Hcontent in Hnodup |- *.
    rewrite pairsOf_app_Even, !fmap_app in Hnodup by done. simpl in Hnodup.
    apply NoDup_app in Hnodup as (_ & Hdisjoint & _).
    rewrite findPair_app_skip; [|done|].
    2:{ intros Hin. apply (Hdisjoint _ Hin), list_elem_of_here. }
    simpl. rewrite decide_True by done. simpl.
    change (forestEntries (leafRule <$> (Value <$> (pairsOf rest).*1)) inputNode
              ≫= (λ entries', Ok (k :: v :: entries')) = Ok (k :: v :: rest)).
    rewrite (IH Hrest (before ++ [k; v])); [done| |].
    + by rewrite Hcontent, <- app_assoc.
    + rewrite length_app. simpl. destruct Hbefore as [m ->]. exists (S m). lia.
Qed.

(** X4. Listing every key of a mapping as a rule without nested rules, in
    the order of the input, gives the mapping's whole content back, provided
    the mapping holds whole pairs and no key twice. *)
Theorem project_all_keys input :
  Kind input = MappingNode →
  Nat.Even (length (Content input)) →
  NoDup (keyTexts (Content input)) →
  project (leafRule <$> keyTexts (Content input)) input =
  Ok (outputMapping (Style input) (Content input)).
Proof.
  intros Hkind Heven Hnodup. apply project_Ok. split; [done|].
  exists (Content input). split; [|done].
  apply (forestEntries_all_keys input []); try done. by exists 0.
Qed.

Lemma project_all_keys_witness :
  project (leafRule <$> keyTexts (Content sampleDocument)) sampleDocument =
  Ok (outputMapping (Style sampleDocument) (Content sampleDocument)).
Proof.
  apply (project_all_keys sampleDocument).
  - reflexivity.
  - exists 2. reflexivity.
  - apply (bool_decide_unpack _). vm_compute. exact I.
Defined.

(** ** What a reader finds in the output *)

(** The first pair with a key among the entries of a forest is the entry of
    the first rule with that key. *)
Lemma forestEntries_firstPair rules inputNode entries key :
  forestEntries rules inputNode = Ok entries →
  match firstRule key rules with
  | None => firstPair key (pairsOf entries) = None
  | Some rule =>
      match firstPair key (pairsOf (Content inputNode)) with
      | None => firstPair key (pairsOf entries) = None
      | Some (keyNode, valueNode) =>
          ∃ node, firstPair key (pairsOf entries) = Some (keyNode, node) ∧
                  if decide (0 < length (Include rule))
                  then project (Include rule) valueNode = Ok node
                  else node = valueNode
      end
  end.
Proof.
  revert entries. induction rules as [|rule rest IH]; intros entries.
  - by intros [= <-].
  - intros (e & e' & He & He' & ->)%forestEntries_cons_Ok.
    specialize (IH e' He'). simpl.
    assert (Nat.Even (length e)) as Heven.
    { apply (forestEntries_Even [rule] inputNode). simpl. rewrite He. simpl.
      by rewrite app_nil_r. }
    rewrite pairsOf_app_Even, firstPair_app by done.
    rewrite ruleEntries_findPair in He.
    destruct (findPair (Key rule) (Content inputNode)) as [[[k v]|]|] eqn:Hfind;
      [|injection He as <-|done].
    + pose proof (findPair_Found _ _ _ _ Hfind) as [Hk _].
      apply findPair_firstPair in Hfind.
      destruct (decide (Key rule = key)) as [<-|Hne].
      * rewrite Hfind.
        destruct (decide (0 < length (Include rule))).
        -- apply bind_Ok in He as (node & Hnode & [= <-]). simpl.
           rewrite decide_True by done. eauto.
        -- injection He as <-. simpl. rewrite decide_True by done. eauto.
      * assert (firstPair key (pairsOf e) = None) as ->; [|done].
        destruct (decide (0 < length (Include rule))).
        -- apply bind_Ok in He as (node & _ & [= <-]). simpl.
           rewrite decide_False by congruence. done.
        -- injection He as <-. simpl. rewrite decide_False by congruence. done.
    + simpl. destruct (decide (Key rule = key)) as [<-|Hne]; [|done].
      apply findPair_firstPair in Hfind. rewrite Hfind.
      apply firstPair_None. pose proof (forestEntries_keyTexts _ _ _ He') as Hkeys.
      unfold keyTexts, keyNodes in Hkeys. rewrite Hkeys.
      intros [Hin _]%list_elem_of_filter.
      apply firstPair_None in Hfind. done.
Qed.

Lemma project_lookupValue rules input output key :
  project rules input = Ok output →
  match firstRule key rules with
  | None => lookupValue key output = None
  | Some rule =>
      match lookupValue key input with
      | None => lookupValue key output = None
      | Some valueNode =>
          ∃ node, lookupValue key output = Some node ∧
                  if decide (0 < length (Include rule))
                  then project (Include rule) valueNode = Ok node
                  else node = valueNode
      end
  end.
Proof.
  intros (Hkind & entries & Hentries & ->)%project_Ok.
  pose proof (forestEntries_firstPair _ _ _ key Hentries) as Hfirst.
  unfold lookupValue. simpl. rewrite decide_True by done.
  destruct (firstRule key rules) as [rule|]; [|by rewrite Hfirst].
  destruct (firstPair key (pairsOf (Content input))) as [[k v]|]; simpl;
    [|by rewrite Hfirst].
  destruct Hfirst as (node & -> & Hnode). eauto.
Qed.

(** X5. A path that the rules include whole reads the same in the output as
    in the input: the same node with everything below it, or nothing on
    both sides. *)
Theorem project_selected_path rules input output path :
  project rules input = Ok output →
  selectsWhole rules path →
  valueAt path output = valueAt path input.
Proof.
  intros Hproject Hselects. revert input output Hproject.
  induction Hselects as [rules key rest rule Hrule Hleaf
                        |rules key rest rule Hrule Hnested _ IH];
    intros input output Hproject;
    pose proof (project_lookupValue _ _ _ key Hproject) as Hlookup;
    rewrite Hrule in Hlookup; simpl.
  - destruct (lookupValue key input) as [v|]; [|by rewrite Hlookup].
    destruct Hlookup as (node & -> & Hnode).
    rewrite Hleaf, decide_False in Hnode by (simpl; lia). by subst.
  - destruct (lookupValue key input) as [v|]; [|by rewrite Hlookup].
    destruct Hlookup as (node & -> & Hnode).
    rewrite decide_True in Hnode by done. by apply IH.
Qed.

Lemma project_selected_path_witness :
  valueAt ["database"; "credentials"; "username"] nestedOutput =
  valueAt ["database"; "credentials"; "username"] sampleDocument.
Proof.
  apply (project_selected_path nestedRules sampleDocument).
  - vm_compute. reflexivity.
  - eapply selectsWhole_nested; [reflexivity|simpl; lia|].
    eapply selectsWhole_nested; [reflexivity|simpl; lia|].
    eapply selectsWhole_leaf; reflexivity.
Defined.

(** X6. The projection adds nothing: whatever a non-empty path reads in the
    output, the same path reads in the input either that very node or a
    node of which it is the projection under nested rules; and a key that no
    rule names reads nothing. *)
Theorem project_adds_nothing rules input output :
  project rules input = Ok output →
  (∀ key, key ∉ (Key <$> rules) → lookupValue key output = None) ∧
  (∀ path node,
      path ≠ [] → valueAt path output = Some node →
      ∃ node', valueAt path input = Some node' ∧
               (node = node' ∨
                ∃ rules', 0 < length rules' ∧ project rules' node' = Ok node)).
Proof.
  intros Hproject. split.
  - intros key Hkey. pose proof (project_lookupValue _ _ _ key Hproject) as Hlookup.
    destruct (firstRule key rules) as [rule|] eqn:Hrule; [|done].
    destruct Hkey. clear -Hrule.
    induction rules as [|r rest IH]; simpl in *; [done|].
    destruct (decide (Key r = key)) as [<-|]; [apply list_elem_of_here|].
    by apply list_elem_of_further, IH.
  - intros path. revert rules input output Hproject.
    induction path as [|key rest IH]; intros rules input output Hproject node Hne;
      [done|]. simpl.
    pose proof (project_lookupValue _ _ _ key Hproject) as Hlookup.
    destruct (lookupValue key output) as [x|] eqn:Hx; [|done].
    destruct (firstRule key rules) as [rule|]; [|done].
    destruct (lookupValue key input) as [v|]; [|done].
    destruct Hlookup as (x' & [= <-] & Hnode).
    destruct (decide (0 < length (Include rule))) as [Hlen|].
    + destruct rest as [|key' rest']; [|by apply (IH _ _ _ Hnode)].
      intros [= <-]. exists v. split; [done|]. right. by exists (Include rule).
    + subst. intros Hrest. exists node. split; [done|]. by left.
Qed.

Lemma project_adds_nothing_witness :
  (∀ key, key ∉ (Key <$> nestedRules) → lookupValue key nestedOutput = None) ∧
  (∀ path node,
      path ≠ [] → valueAt path nestedOutput = Some node →
      ∃ node', valueAt path sampleDocument = Some node' ∧
               (node = node' ∨
                ∃ rules', 0 < length rules' ∧ project rules' node' = Ok node)).
Proof.
  apply (project_adds_nothing nestedRules sampleDocument nestedOutput).
  vm_compute. reflexivity.
Defined.

(** ** The run on pointers and the run on trees *)

(** X7. On a store that holds a tree at the input location, the call on
    pointers ends exactly as the call on that tree does (the same fatal
    exit, or a result), the store it returns extends the given one and holds
    the projected tree at the output location; and when the tree is well
    formed the call raises no run-time panic, neither a nil dereference nor
    an index out of range. *)
Theorem projectAt_computes_project rules inputNode h input :
  represents h inputNode input →
  agree (λ '(outputNode, h') output, h ⊆ h' ∧ represents h' outputNode output)
    (projectAt rules inputNode h) (project rules input) ∧
  (wellFormed input = true → ∀ msg, projectAt rules inputNode h ≠ Panic msg).
Proof.
  intros Hin. pose proof (projectAt_refines rules _ _ _ Hin) as Hagree.
  split; [done|]. intros Hwf msg Hpanic. rewrite Hpanic in Hagree.
  pose proof (filterByRules_no_panic rules input zeroNode) as Hno.
  unfold project in Hagree.
  destruct (filterByRules rules input zeroNode) as [| | |msg'] eqn:Hrun; try done.
  by apply (Hno msg' Hwf).
Qed.

Lemma projectAt_computes_project_witness :
  agree (λ '(outputNode, h') output,
           sampleStore ⊆ h' ∧ represents h' outputNode output)
    (projectAt sampleStoreRules 1%positive sampleStore)
    (project sampleStoreRules sampleStoreTree) ∧
  (wellFormed sampleStoreTree = true →
   ∀ msg, projectAt sampleStoreRules 1%positive sampleStore ≠ Panic msg).
Proof.
  apply (projectAt_computes_project sampleStoreRules 1%positive sampleStore sampleStoreTree).
  assert (∀ p tag value line column,
            sampleStore !! p = Some (scalarCell tag value line column) →
            represents sampleStore p (scalarNode tag value line column)) as Hscalar.
  { intros p tag value line column Hp.
    apply (represents_intro _ _ _ None []); [exact Hp|constructor|constructor]. }
  apply (represents_intro _ _ _ None [2; 3]%positive); [reflexivity|constructor|].
  constructor; [by apply Hscalar|].
  constructor; [|constructor].
  apply (represents_intro _ _ _ None [4; 5; 6; 7]%positive); [reflexivity|constructor|].
  repeat (constructor; [by apply Hscalar|]). constructor.
Defined.

(** * Properties of the command around the engine *)

(** ** Names of the cache files *)






(** ** The cache *)

Lemma storedEtagOf_writeTo etagFilePath path content w :
  path ≠ etagFilePath →
  storedEtagOf etagFilePath (writeTo path content w) = storedEtagOf etagFilePath w.
Proof.
  intros Hne. unfold storedEtagOf, osReadFile, readPath. simpl.
  by rewrite lookup_insert_ne.
Qed.

Lemma storedEtagOf_written etagFilePath etag w :
  storedEtagOf etagFilePath
    (writeTo etagFilePath (String.list_byte_of_string etag) w) = etag.
Proof.
  unfold storedEtagOf, osReadFile, readPath. simpl.
  rewrite lookup_insert_eq. apply String.string_of_list_byte_of_string.
Qed.

Lemma osReadFile_writeTo path content w :
  osReadFile path (writeTo path content w) = inl content.
Proof. unfold osReadFile, readPath. simpl. by rewrite lookup_insert_eq. Qed.

Lemma osReadFile_writeTo_ne path path' content w :
  path' ≠ path → osReadFile path (writeTo path' content w) = osReadFile path w.
Proof.
  intros Hne. unfold osReadFile, readPath. simpl. by rewrite lookup_insert_ne.
Qed.

(** X9. Whatever the outcome, [checkCacheAndDownload] creates no directory
    and writes no file other than the content file and the ETag file; and it
    leaves the files as they were unless the response had status 200 and the
    content file could be created. *)
Theorem checkCacheAndDownload_writes env url localFilePath etagFilePath w w' r :
  checkCacheAndDownload env url localFilePath etagFilePath w = (w', r) →
  dirs w' = dirs w ∧
  (∀ path, path ≠ localFilePath → path ≠ etagFilePath →
           files w' !! path = files w !! path) ∧
  (w' ≠ w →
   ∃ resp,
     httpDo env url (ifNoneMatch (storedEtagOf etagFilePath w)) = inl resp ∧
     StatusCode resp = 200%Z ∧ writeFailure env localFilePath = None).
Proof.
  unfold checkCacheAndDownload, osWriteFile.
  intros Hrun.
  repeat case_match; simplify_eq; simpl;
    repeat split; try done; try (intros; by rewrite ?lookup_insert_ne);
    intros _; eexists; (split; [reflexivity|]); (split; [|done]);
    by apply dec_stable.
Qed.

Lemma checkCacheAndDownload_writes_witness :
  dirs cachedWorld = dirs emptyWorld ∧
  (∀ path, path ≠ "/cache/app" → path ≠ "/cache/app.etag" →
           files cachedWorld !! path = files emptyWorld !! path) ∧
  (cachedWorld ≠ emptyWorld →
   ∃ resp,
     httpDo sampleEnv sampleURL
       (ifNoneMatch (storedEtagOf "/cache/app.etag" emptyWorld)) = inl resp ∧
     StatusCode resp = 200%Z ∧ writeFailure sampleEnv "/cache/app" = None).
Proof.
  apply (checkCacheAndDownload_writes sampleEnv sampleURL
           "/cache/app" "/cache/app.etag" emptyWorld cachedWorld (Ok ())).
  vm_compute. reflexivity.
Defined.

Lemma ifNoneMatch_Some etag : etag ≠ "" → ifNoneMatch etag = Some etag.
Proof. intros Hne. unfold ifNoneMatch. by rewrite decide_True. Qed.

Lemma checkCacheAndDownload_not_modified env url localFilePath etagFilePath w resp :
  newRequestError env url = None →
  httpDo env url (ifNoneMatch (storedEtagOf etagFilePath w)) = inl resp →
  StatusCode resp = 304%Z →
  checkCacheAndDownload env url localFilePath etagFilePath w = (w, Ok ()).
Proof.
  intros Hrequest Hresp Hstatus. unfold checkCacheAndDownload.
  by rewrite Hrequest, Hresp, decide_True.
Qed.

(** X10. A download and a later cache hit: when the server answers 200 with
    an entity tag and nothing fails, the call stores the body in the content
    file and the tag in the ETag file; a later call whose request carries
    that tag and is answered 304 succeeds and changes nothing, so the content
    file still holds the body that was downloaded. *)
Theorem checkCacheAndDownload_round_trip env url localFilePath etagFilePath w resp :
  localFilePath ≠ etagFilePath →
  newRequestError env url = None →
  httpDo env url (ifNoneMatch (storedEtagOf etagFilePath w)) = inl resp →
  StatusCode resp = 200%Z → BodyError resp = None → ETagHeader resp ≠ "" →
  writeFailure env localFilePath = None → writeFailure env etagFilePath = None →
  let w1 := writeTo etagFilePath (String.list_byte_of_string (ETagHeader resp))
              (writeTo localFilePath (Body resp) w) in
  checkCacheAndDownload env url localFilePath etagFilePath w = (w1, Ok ()) ∧
  osReadFile localFilePath w1 = inl (Body resp) ∧
  ∀ env' resp',
    newRequestError env' url = None →
    httpDo env' url (Some (ETagHeader resp)) = inl resp' →
    StatusCode resp' = 304%Z →
    checkCacheAndDownload env' url localFilePath etagFilePath w1 = (w1, Ok ()).
Proof.
  intros Hne Hrequest Hresp Hstatus Hbody Hetag Hlocal Hwrite w1. split_and!.
  - unfold checkCacheAndDownload, osWriteFile.
    rewrite Hrequest, Hresp, Hstatus, Hlocal, Hbody, Hwrite. simpl.
    by rewrite decide_True.
  - unfold w1. by rewrite osReadFile_writeTo_ne, osReadFile_writeTo.
  - intros env' resp' Hrequest' Hresp' Hstatus'.
    apply (checkCacheAndDownload_not_modified _ _ _ _ _ resp'); [done| |done].
    unfold w1. by rewrite storedEtagOf_written, ifNoneMatch_Some.
Qed.

Lemma checkCacheAndDownload_round_trip_witness :
  let resp := mkResponse 200 "v1" (String.list_byte_of_string twoFieldsText) None in
  let w1 := writeTo "/cache/app.etag" (String.list_byte_of_string (ETagHeader resp))
              (writeTo "/cache/app" (Body resp) emptyWorld) in
  checkCacheAndDownload sampleEnv sampleURL "/cache/app" "/cache/app.etag" emptyWorld =
    (w1, Ok ()) ∧
  osReadFile "/cache/app" w1 = inl (Body resp) ∧
  ∀ env' resp',
    newRequestError env' sampleURL = None →
    httpDo env' sampleURL (Some (ETagHeader resp)) = inl resp' →
    StatusCode resp' = 304%Z →
    checkCacheAndDownload env' sampleURL "/cache/app" "/cache/app.etag" w1 = (w1, Ok ()).
Proof.
  apply (checkCacheAndDownload_round_trip sampleEnv sampleURL
           "/cache/app" "/cache/app.etag" emptyWorld);
    try reflexivity; discriminate.
Defined.

(** X11. A download that breaks: when the server answers 200 and the body
    ends in an error, the content file has already been replaced by what
    arrived of the body, the call returns the error and the ETag file keeps
    the old tag; a later call that is answered 304 for that old tag then
    succeeds and leaves the broken content in the cache. *)
Theorem checkCacheAndDownload_broken_body env url localFilePath etagFilePath w resp msg :
  localFilePath ≠ etagFilePath →
  newRequestError env url = None →
  httpDo env url (ifNoneMatch (storedEtagOf etagFilePath w)) = inl resp →
  StatusCode resp = 200%Z → BodyError resp = Some msg →
  writeFailure env localFilePath = None →
  let w1 := writeTo localFilePath (Body resp) w in
  checkCacheAndDownload env url localFilePath etagFilePath w =
    (w1, Error ("failed to write content to local file: " +:+ msg)) ∧
  storedEtagOf etagFilePath w1 = storedEtagOf etagFilePath w ∧
  ∀ env' resp',
    newRequestError env' url = None →
    httpDo env' url (ifNoneMatch (storedEtagOf etagFilePath w)) = inl resp' →
    StatusCode resp' = 304%Z →
    checkCacheAndDownload env' url localFilePath etagFilePath w1 = (w1, Ok ()) ∧
    osReadFile localFilePath w1 = inl (Body resp).
Proof.
  intros Hne Hrequest Hresp Hstatus Hbody Hlocal w1.
  assert (storedEtagOf etagFilePath w1 = storedEtagOf etagFilePath w) as Hstored
    by (by apply storedEtagOf_writeTo).
  split_and!; [|done|].
  - unfold checkCacheAndDownload.
    by rewrite Hrequest, Hresp, Hstatus, Hlocal, Hbody.
  - intros env' resp' Hrequest' Hresp' Hstatus'. split.
    + apply (checkCacheAndDownload_not_modified _ _ _ _ _ resp'); [done| |done].
      by rewrite Hstored.
    + apply osReadFile_writeTo.
Qed.

Lemma checkCacheAndDownload_broken_body_witness :
  let resp := mkResponse 200 "v2" (String.list_byte_of_string (unlines ["a:"]))
                (Some "unexpected EOF") in
  let w1 := writeTo "/cache/app" (Body resp) cachedWorld in
  checkCacheAndDownload brokenEnv sampleURL "/cache/app" "/cache/app.etag" cachedWorld =
    (w1, Error ("failed to write content to local file: " +:+ "unexpected EOF")) ∧
  storedEtagOf "/cache/app.etag" w1 = storedEtagOf "/cache/app.etag" cachedWorld ∧
  ∀ env' resp',
    newRequestError env' sampleURL = None →
    httpDo env' sampleURL (ifNoneMatch (storedEtagOf "/cache/app.etag" cachedWorld)) =
      inl resp' →
    StatusCode resp' = 304%Z →
    checkCacheAndDownload env' sampleURL "/cache/app" "/cache/app.etag" w1 = (w1, Ok ()) ∧
    osReadFile "/cache/app" w1 = inl (Body resp).
Proof.
  apply (checkCacheAndDownload_broken_body brokenEnv sampleURL
           "/cache/app" "/cache/app.etag" cachedWorld);
    try reflexivity; discriminate.
Defined.

Example cache_scenario :
  checkCacheAndDownload sampleEnv sampleURL "/cache/app" "/cache/app.etag" emptyWorld =
    (cachedWorld, Ok ()) ∧
  checkCacheAndDownload sampleEnv sampleURL "/cache/app" "/cache/app.etag" cachedWorld =
    (cachedWorld, Ok ()) ∧
  checkCacheAndDownload brokenEnv sampleURL "/cache/app" "/cache/app.etag" cachedWorld =
    (brokenWorld, Error "failed to write content to local file: unexpected EOF") ∧
  checkCacheAndDownload sampleEnv sampleURL "/cache/app" "/cache/app.etag" brokenWorld =
    (brokenWorld, Ok ()) ∧
  checkCacheAndDownload sampleEnv "https://example.org/none" "/cache/x" "/cache/x.etag"
    emptyWorld = (emptyWorld, Error "unexpected status code: 404").
Proof. vm_compute. done. Qed.

(** ** The whole command *)

Lemma parseConfiguration_world env filePath w w' r :
  parseConfiguration env filePath w = (w', r) → w' = w.
Proof. unfold parseConfiguration. intros. by repeat case_match; simplify_eq. Qed.

Lemma checkCacheAndDownload_frame env url localFilePath etagFilePath w w' r :
  checkCacheAndDownload env url localFilePath etagFilePath w = (w', r) →
  dirs w' = dirs w ∧
  ∀ path, path ≠ localFilePath → path ≠ etagFilePath →
          files w' !! path = files w !! path.
Proof.
  unfold checkCacheAndDownload, osWriteFile. intros Hrun.
  repeat case_match; simplify_eq; simpl; split; try done;
    intros; by rewrite ?lookup_insert_ne.
Qed.

Lemma mkdirAllChain_frame env chain :
  ∀ w w' r,
    mkdirAllChain env chain w = (w', r) →
    files w' = files w ∧ ∀ dir, dir ∈ dirs w' → dir ∈ dirs w ∨ dir ∈ chain.
Proof.
  induction chain as [|path parents IH]; intros w w' r; simpl.
  - intros [= <- _]. auto.
  - destruct (osStat env path w).
    + case_decide; intros [= <- _]; auto.
    + destruct (mkdirAllChain env parents w) as [w1 r1] eqn:Hparents.
      destruct (IH _ _ _ Hparents) as [Hfiles Hdirs].
      destruct r1; [destruct (mkdirFailure env path)|..]; intros [= <- _];
        (split; [done|]); simpl; intros dir Hdir.
      all: try (destruct (Hdirs dir Hdir); [by left|right; by apply list_elem_of_further]).
      apply elem_of_union in Hdir as [->%elem_of_singleton|Hdir].
      * right. apply list_elem_of_here.
      * destruct (Hdirs dir Hdir); [by left|right; by apply list_elem_of_further].
    + destruct (mkdirAllChain env parents w) as [w1 r1] eqn:Hparents.
      destruct (IH _ _ _ Hparents) as [Hfiles Hdirs].
      destruct r1; [destruct (mkdirFailure env path)|..]; intros [= <- _];
        (split; [done|]); simpl; intros dir Hdir.
      all: try (destruct (Hdirs dir Hdir); [by left|right; by apply list_elem_of_further]).
      apply elem_of_union in Hdir as [->%elem_of_singleton|Hdir].
      * right. apply list_elem_of_here.
      * destruct (Hdirs dir Hdir); [by left|right; by apply list_elem_of_further].
Qed.

(** What the cache may have done to the world when [main] is past it: made
    the cache directory and parents of it, and written the two cache files. *)
Lemma cache_phase env url cachePath localFilePath etagFilePath w w0 w1 :
  w1 = w0 ∨ (∃ r1, checkCacheAndDownload env url localFilePath etagFilePath w0 = (w1, r1)) →
  w0 = w ∨ (∃ r0, osMkdirAll env cachePath w = (w0, r0)) →
  (∀ dir, dir ∈ dirs w1 → dir ∈ dirs w ∨ dir = cachePath ∨ dir ∈ parentDirs cachePath) ∧
  (∀ path, path ≠ localFilePath → path ≠ etagFilePath →
           files w1 !! path = files w !! path).
Proof.
  intros Hdownload Hmkdir.
  assert (files w0 = files w ∧
          ∀ dir, dir ∈ dirs w0 →
                 dir ∈ dirs w ∨ dir = cachePath ∨ dir ∈ parentDirs cachePath)
    as [Hfiles0 Hdirs0].
  { destruct Hmkdir as [->|[r0 Hmkdir]]; [auto|].
    apply mkdirAllChain_frame in Hmkdir as [? Hdirs]. split; [done|].
    intros dir Hdir. destruct (Hdirs dir Hdir) as [?|Hin]; [auto|right].
    by apply elem_of_cons in Hin. }
  destruct Hdownload as [->|[r1 Hdownload]].
  - split; [done|]. intros. by rewrite Hfiles0.
  - apply checkCacheAndDownload_frame in Hdownload as [Hdirs1 Hfiles1]. split.
    + rewrite Hdirs1. done.
    + intros. rewrite Hfiles1 by done. by rewrite Hfiles0.
Qed.

(** Running [main] step by step: [run_in] unfolds the plumbing of the
    monad, [step_in] distinguishes the cases of the call the run waits for. *)
Ltac head_scrutinee t :=
  lazymatch t with
  | match ?x with _ => _ end => head_scrutinee x
  | (match ?x with _ => _ end) _ => head_scrutinee x
  | _ => t
  end.

Ltac run_in H :=
  cbv beta iota zeta delta
    [actionBind orFatal liftResult pureAction fatalf
     isFile osWriteFile downloadFile
     Configuration.Input Configuration.Output Configuration.Cache
     Configuration.Include CacheConfig.Enabled CacheConfig.Path
     Configuration.setCachePath Configuration.setOutput andb] in H.

Ltac step_in H :=
  lazymatch type of H with
  | ?l = _ =>
      let x := head_scrutinee l in
      lazymatch x with
      | (_, _) => fail "the run has ended"
      | _ => destruct x eqn:?; run_in H
      end
  end.

Ltac main_config Hparse :=
  lazymatch type of Hparse with
  | _ = (_, Ok ?config) => config
  end.

(** The cache directory of the goal: the home directory when one was asked
    for, and the resolved path, which is the one [os.Stat] was called on. *)
Ltac cache_directory :=
  cbn [Configuration.Input Configuration.Output Configuration.Cache
       Configuration.Include CacheConfig.Enabled CacheConfig.Path];
  lazymatch goal with
  | Hstat : osStat _ ?cachePath _ = _ |- _ =>
      lazymatch goal with
      | Hhome : userHomeDir _ = inl ?home |- _ => exists home, cachePath
      | _ => exists "", cachePath
      end
  end;
  split; [by intros|];
  split; [destruct (decide (_ = "")); first [eassumption | done | congruence]|].

Ltac main_failed Hparse :=
  split; [by eauto|];
  first
    [ by left
    | right;
      let config := main_config Hparse in
      eexists _, config, _; split; [done|]; split; [exact Hparse|]; split;
      [ first
          [ right; eexists _, _, _, _, _;
            split; [eassumption|]; split; [reflexivity|]; split; [eassumption|];
            reflexivity
          | left; reflexivity ]
      | first
          [ by left
          | right; split; [done|]; split; [done|];
            cache_directory;
            lazymatch goal with
            | Hstat : osStat ?env _ _ = _, Hurl : isURL ?url = true |- _ =>
                eapply (cache_phase env url)
            end;
            [ first [right; eexists; eassumption | left; reflexivity]
            | first [right; eexists; eassumption | left; reflexivity] ] ] ] ].

Ltac main_succeeded Hparse :=
  let config := main_config Hparse in
  lazymatch goal with
  | Hout : filepathAbs _ _ = inl ?absOutputPath,
    Hwrite : writeFailure _ ?absOutputPath = None,
    Htrim : trim _ ?content _ = Ok ?trimmedContent
    |- ∃ _, _ =>
      eexists _, config, absOutputPath, content, trimmedContent, _;
      split_and!;
      [done|exact Hparse|exact Hout|by rewrite <- length_zero_iff_nil|exact Htrim
      |by rewrite <- length_zero_iff_nil|reflexivity|simpl];
      match goal with H : isURL _ = _ |- _ => rewrite H end
  end.

Lemma main_outcome env configPath w w' r :
  main env configPath w = (w', r) →
  match r with
  | Ok _ =>
      ∃ absPath config absOutputPath content trimmedContent w1,
        filepathAbs env configPath = inl absPath ∧
        parseConfiguration env absPath w = (w, Ok config) ∧
        filepathAbs env (Configuration.Output config) = inl absOutputPath ∧
        content ≠ [] ∧
        trim (yamlCodec env) content (Configuration.Include config) = Ok trimmedContent ∧
        trimmedContent ≠ [] ∧
        w' = writeTo absOutputPath trimmedContent w1 ∧
        if isURL (Configuration.Input config) then
          if CacheConfig.Enabled (Configuration.Cache config) then
            ∃ home cachePath,
              let url := Configuration.Input config in
              let configured := CacheConfig.Path (Configuration.Cache config) in
              let localFilePath :=
                filepathJoin env cachePath (generateFileName env url "") in
              let etagFilePath :=
                filepathJoin env cachePath (generateFileName env url "etag") in
              (configured = "" → userHomeDir env = inl home) ∧
              filepathAbs env
                (if decide (configured = "")
                 then filepathJoin env home ".yamltrimmer-cache"
                 else configured) = inl cachePath ∧
              ∃ w0,
                (osStat env cachePath w = StatOk ∧ w0 = w ∨
                 (∃ msg, osStat env cachePath w = StatNotExist msg) ∧
                 osMkdirAll env cachePath w = (w0, Ok ())) ∧
                checkCacheAndDownload env url localFilePath etagFilePath w0 =
                  (w1, Ok ()) ∧
                osReadFile localFilePath w1 = inl content
          else
            ∃ resp, httpDo env (Configuration.Input config) None = inl resp ∧
                    BodyError resp = None ∧ content = Body resp ∧ w1 = w
        else osReadFile (Configuration.Input config) w = inl content ∧ w1 = w
  | Error _ => False
  | _ =>
      (∃ msg, r = Fatal msg ∨ r = Panic msg) ∧
      (w' = w ∨
       ∃ absPath config w1,
         filepathAbs env configPath = inl absPath ∧
         parseConfiguration env absPath w = (w, Ok config) ∧
         (w' = w1 ∨
          ∃ absOutputPath msg content trimmedContent n,
            filepathAbs env (Configuration.Output config) = inl absOutputPath ∧
            r = Fatal ("Failed to write output file: " +:+ msg) ∧
            trim (yamlCodec env) content (Configuration.Include config) =
              Ok trimmedContent ∧
            w' = writeTo absOutputPath (take n trimmedContent) w1) ∧
         (w1 = w ∨
          isURL (Configuration.Input config) = true ∧
          CacheConfig.Enabled (Configuration.Cache config) = true ∧
          ∃ home cachePath,
            let url := Configuration.Input config in
            let configured := CacheConfig.Path (Configuration.Cache config) in
            let localFilePath :=
              filepathJoin env cachePath (generateFileName env url "") in
            let etagFilePath :=
              filepathJoin env cachePath (generateFileName env url "etag") in
            (configured = "" → userHomeDir env = inl home) ∧
            filepathAbs env
              (if decide (configured = "")
               then filepathJoin env home ".yamltrimmer-cache"
               else configured) = inl cachePath ∧
            (∀ dir, dir ∈ dirs w1 →
                    dir ∈ dirs w ∨ dir = cachePath ∨ dir ∈ parentDirs cachePath) ∧
            (∀ path, path ≠ localFilePath → path ≠ etagFilePath →
                     files w1 !! path = files w !! path)))
  end.
Proof.
  unfold main. intros Hrun. run_in Hrun.
  step_in Hrun; [|simplify_eq; split; by eauto].
  destruct (parseConfiguration env s w) as [w0 rc] eqn:Hparse.
  pose proof (parseConfiguration_world _ _ _ _ _ Hparse) as ->.
  destruct rc as [[input output [enabled path] include]|msg|msg|msg];
    try (simplify_eq; split; by eauto).
  run_in Hrun.
  destruct (isURL input) eqn:Hurl; [destruct enabled|]; run_in Hrun.
  - repeat (step_in Hrun; try (simplify_eq; split; by eauto)).
    all: simplify_eq.
    all: repeat match goal with a : () |- _ => destruct a end.
    all: try match goal with
             | |- context [match writeProgress ?e ?p with _ => _ end] =>
                 destruct (writeProgress e p) eqn:?
             end.
    all: try (main_failed Hparse).
    all: main_succeeded Hparse.
    all: cache_directory.
    all: lazymatch goal with
         | Hdownload : checkCacheAndDownload _ _ _ _ ?w0 = _ |- _ => exists w0
         end.
    all: split;
      [ first [ left; split; [eassumption|reflexivity]
              | right; split; [eexists; eassumption|eassumption] ]
      | split; eassumption ].
  - repeat (step_in Hrun; try (simplify_eq; split; by eauto)).
    all: simplify_eq.
    all: try match goal with
             | |- context [match writeProgress ?e ?p with _ => _ end] =>
                 destruct (writeProgress e p) eqn:?
             end.
    all: try (main_failed Hparse).
    main_succeeded Hparse. by eexists.
  - repeat (step_in Hrun; try (simplify_eq; split; by eauto)).
    all: simplify_eq.
    all: try match goal with
             | |- context [match writeProgress ?e ?p with _ => _ end] =>
                 destruct (writeProgress e p) eqn:?
             end.
    all: try (main_failed Hparse).
    main_succeeded Hparse. done.
Qed.



(** The disk fills up while the output is written: the cache is complete
    and the output file holds the first three bytes. *)
Example main_full_disk_scenario :
  let w' := (main fullDiskEnv "config.yaml" (configuredWorld "cached")).1 in
  files w' !! "/work/out.yaml" = Some (String.list_byte_of_string "a:" ++ [x0a]) ∧
  osReadFile (sampleJoin sampleCachePath (generateFileName fullDiskEnv sampleURL "")) w' =
    inl (String.list_byte_of_string twoFieldsText) ∧
  elements (dirs w') = [sampleCachePath; "/home/user"; "/home"].
Proof. vm_compute. done. Qed.

(** X13. A run of the command that succeeds has read the configuration
    from the resolved path, got a non-empty input, trimmed it by the rules of
    the configuration to a non-empty result, and written exactly that result
    to the resolved output path as its last step.  The input is the file at
    the configured path as given (not resolved) when it is no URL, and the
    body of the response when it is a URL and the cache is off.  When the
    cache is on, the cache directory is the resolved configured path, or
    [.yamltrimmer-cache] in the home directory when none is configured; it
    existed or [os.MkdirAll] made it; and the input is the content file of
    the URL in it after a successful [checkCacheAndDownload]. *)
Theorem main_success env configPath w w' :
  main env configPath w = (w', Ok ()) →
  ∃ absPath config absOutputPath content trimmedContent w1,
    filepathAbs env configPath = inl absPath ∧
    parseConfiguration env absPath w = (w, Ok config) ∧
    filepathAbs env (Configuration.Output config) = inl absOutputPath ∧
    content ≠ [] ∧
    trim (yamlCodec env) content (Configuration.Include config) = Ok trimmedContent ∧
    trimmedContent ≠ [] ∧
    w' = writeTo absOutputPath trimmedContent w1 ∧
    if isURL (Configuration.Input config) then
      if CacheConfig.Enabled (Configuration.Cache config) then
        ∃ home cachePath,
          let url := Configuration.Input config in
          let configured := CacheConfig.Path (Configuration.Cache config) in
          let localFilePath :=
            filepathJoin env cachePath (generateFileName env url "") in
          let etagFilePath :=
            filepathJoin env cachePath (generateFileName env url "etag") in
          (configured = "" → userHomeDir env = inl home) ∧
          filepathAbs env
            (if decide (configured = "")
             then filepathJoin env home ".yamltrimmer-cache"
             else configured) = inl cachePath ∧
          ∃ w0,
            (osStat env cachePath w = StatOk ∧ w0 = w ∨
             (∃ msg, osStat env cachePath w = StatNotExist msg) ∧
             osMkdirAll env cachePath w = (w0, Ok ())) ∧
            checkCacheAndDownload env url localFilePath etagFilePath w0 =
              (w1, Ok ()) ∧
            osReadFile localFilePath w1 = inl content
      else
        ∃ resp, httpDo env (Configuration.Input config) None = inl resp ∧
                BodyError resp = None ∧ content = Body resp ∧ w1 = w
    else osReadFile (Configuration.Input config) w = inl content ∧ w1 = w.
Proof. intros Hrun. apply (main_outcome _ _ _ _ _ Hrun). Qed.

Lemma main_success_witness :
  let env := sampleEnv in
  let w := configuredWorld "cached" in
  let w' := (main env "config.yaml" w).1 in
  ∃ absPath config absOutputPath content trimmedContent w1,
    filepathAbs env "config.yaml" = inl absPath ∧
    parseConfiguration env absPath w = (w, Ok config) ∧
    filepathAbs env (Configuration.Output config) = inl absOutputPath ∧
    content ≠ [] ∧
    trim (yamlCodec env) content (Configuration.Include config) = Ok trimmedContent ∧
    trimmedContent ≠ [] ∧
    w' = writeTo absOutputPath trimmedContent w1 ∧
    if isURL (Configuration.Input config) then
      if CacheConfig.Enabled (Configuration.Cache config) then
        ∃ home cachePath,
          let url := Configuration.Input config in
          let configured := CacheConfig.Path (Configuration.Cache config) in
          let localFilePath :=
            filepathJoin env cachePath (generateFileName env url "") in
          let etagFilePath :=
            filepathJoin env cachePath (generateFileName env url "etag") in
          (configured = "" → userHomeDir env = inl home) ∧
          filepathAbs env
            (if decide (configured = "")
             then filepathJoin env home ".yamltrimmer-cache"
             else configured) = inl cachePath ∧
          ∃ w0,
            (osStat env cachePath w = StatOk ∧ w0 = w ∨
             (∃ msg, osStat env cachePath w = StatNotExist msg) ∧
             osMkdirAll env cachePath w = (w0, Ok ())) ∧
            checkCacheAndDownload env url localFilePath etagFilePath w0 =
              (w1, Ok ()) ∧
            osReadFile localFilePath w1 = inl content
      else
        ∃ resp, httpDo env (Configuration.Input config) None = inl resp ∧
                BodyError resp = None ∧ content = Body resp ∧ w1 = w
    else osReadFile (Configuration.Input config) w = inl content ∧ w1 = w.
Proof.
  apply (main_success sampleEnv "config.yaml" (configuredWorld "cached")).
  vm_compute. reflexivity.
Defined.

Ltac run :=
  cbv beta iota zeta delta
    [actionBind orFatal liftResult pureAction fatalf
     isFile osWriteFile osMkdirAll downloadFile
     Configuration.Input Configuration.Output Configuration.Cache
     Configuration.Include CacheConfig.Enabled CacheConfig.Path
     Configuration.setCachePath Configuration.setOutput andb].

(** X14. With a URL as input and the cache off, the status code of the
    response is never looked at: whatever it is, the body is taken as the
    input, trimmed and written to the output. *)
Theorem main_download_any_status env configPath w absPath config absOutputPath
    resp trimmedContent :
  filepathAbs env configPath = inl absPath →
  parseConfiguration env absPath w = (w, Ok config) →
  isURL (Configuration.Input config) = true →
  CacheConfig.Enabled (Configuration.Cache config) = false →
  filepathAbs env (Configuration.Output config) = inl absOutputPath →
  httpDo env (Configuration.Input config) None = inl resp →
  BodyError resp = None →
  Body resp ≠ [] →
  trim (yamlCodec env) (Body resp) (Configuration.Include config) = Ok trimmedContent →
  trimmedContent ≠ [] →
  writeFailure env absOutputPath = None →
  main env configPath w = (writeTo absOutputPath trimmedContent w, Ok ()).
Proof.
  intros Habs Hparse Hurl Hcache Hout Hresp Hbody Hinput Htrim Htrimmed Hwrite.
  destruct config as [input output [enabled path] include]. simpl in *. subst enabled.
  rewrite <- length_zero_iff_nil in Hinput, Htrimmed.
  unfold main. run.
  rewrite Habs; cbv beta iota. rewrite Hparse; run. repeat (rewrite Hurl; run).
  rewrite Hout; cbv beta iota. rewrite Hresp; cbv beta iota.
  rewrite Hbody; cbv beta iota.
  destruct (decide (length (Body resp) = 0)); [done|]; cbv beta iota.
  rewrite Htrim; cbv beta iota.
  destruct (decide (length trimmedContent = 0)); [done|]; cbv beta iota.
  by rewrite Hwrite.
Qed.

Lemma main_download_any_status_witness :
  main errorPageEnv "config.yaml" (configuredWorld "direct") =
    (writeTo "/work/out.yaml" (String.list_byte_of_string (unlines ["a:"; "  x: 1"]))
       (configuredWorld "direct"), Ok ()).
Proof.
  apply (main_download_any_status errorPageEnv "config.yaml" (configuredWorld "direct")
           "/work/config.yaml" (sampleConfiguration false sampleURL) "/work/out.yaml"
           (mkResponse 500 "" (String.list_byte_of_string twoFieldsText) None));
    try reflexivity; try discriminate.
Defined.

(** X15. A cache with an ETag file and no content file: when the server
    answers 304 to the stored tag, the command does not download the
    document; it fails on reading the content file and leaves everything as
    it was, so the next run meets the same cache. *)
Theorem main_cache_without_content env configPath w absPath config home cachePath
    absOutputPath resp :
  let url := Configuration.Input config in
  let localFilePath := filepathJoin env cachePath (generateFileName env url "") in
  let etagFilePath := filepathJoin env cachePath (generateFileName env url "etag") in
  filepathAbs env configPath = inl absPath →
  parseConfiguration env absPath w = (w, Ok config) →
  isURL url = true →
  CacheConfig.Enabled (Configuration.Cache config) = true →
  (CacheConfig.Path (Configuration.Cache config) = "" → userHomeDir env = inl home) →
  filepathAbs env
    (if decide (CacheConfig.Path (Configuration.Cache config) = "")
     then filepathJoin env home ".yamltrimmer-cache"
     else CacheConfig.Path (Configuration.Cache config)) = inl cachePath →
  osStat env cachePath w = StatOk →
  filepathAbs env (Configuration.Output config) = inl absOutputPath →
  newRequestError env url = None →
  httpDo env url (ifNoneMatch (storedEtagOf etagFilePath w)) = inl resp →
  StatusCode resp = 304%Z →
  readPath localFilePath w = None →
  main env configPath w =
    (w, Fatal ("Failed to read input file from cache: " +:+
               notExistMsg "open" localFilePath)).
Proof.
  destruct config as [input output [enabled path] include].
  cbn [Configuration.Input Configuration.Output Configuration.Cache
       Configuration.Include CacheConfig.Enabled CacheConfig.Path].
  intros Habs Hparse Hurl -> Hhome Hdir Hstat Hout Hrequest Hresp Hstatus Hlocal.
  pose proof (checkCacheAndDownload_not_modified env input
                (filepathJoin env cachePath (generateFileName env input ""))
                _ w resp Hrequest Hresp Hstatus) as Hdownload.
  unfold main. run.
  rewrite Habs; cbv beta iota. rewrite Hparse; run. repeat (rewrite Hurl; run).
  destruct (decide (path = "")) as [Hpath|Hpath]; cbv beta iota.
  - rewrite (Hhome Hpath); cbv beta iota. rewrite Hdir; cbv beta iota.
    rewrite Hstat, Hout; run. repeat (rewrite Hurl; run).
    rewrite Hdownload; cbv beta iota.
    unfold osReadFile. by rewrite Hlocal.
  - rewrite Hdir; cbv beta iota. rewrite Hstat, Hout; run.
    repeat (rewrite Hurl; run).
    rewrite Hdownload; cbv beta iota.
    unfold osReadFile. by rewrite Hlocal.
Qed.

Lemma main_cache_without_content_witness :
  main sampleEnv "config.yaml" staleWorld =
    (staleWorld,
     Fatal ("Failed to read input file from cache: " +:+
            notExistMsg "open"
              (filepathJoin sampleEnv sampleCachePath
                 (generateFileName sampleEnv sampleURL "")))).
Proof.
  apply (main_cache_without_content sampleEnv "config.yaml" staleWorld
           "/work/config.yaml" (sampleConfiguration true sampleURL) "/home/user"
           sampleCachePath "/work/out.yaml" (mkResponse 304 "v1" [] None));
    try (vm_compute; reflexivity); done.
Defined.
